(** * The emulated process-shared condition variable

    A shallow embedding of [interprocess_condition] as implemented in
    [include/boost/interprocess/sync/win32/interprocess_condition.hpp], and
    the proofs of what its specification says about it.

    The object lives in shared memory and is used by any number of
    threads, so that the two member functions [notify] and [do_timed_wait]
    are embedded as transition functions: a thread is at a program point,
    named after the source line of the access to shared memory it is about
    to perform ([N46] is the lock of line 46, [W144] the compare-exchange
    of line 144), with its locals in a frame, and a step performs that one
    access together with the computation on locals that follows it, up to
    the next access.  The system interleaves the steps of its threads; the
    interlocked operations and the mutexes are atomic and sequentially
    consistent, as the Win32 primitives are.  The time is a counter that
    ticks between steps.

    The file has five parts: the program, the vocabulary of the proofs
    (the invariant, histories, scenarios), the lemmas, the theorems about
    the claims of the specification, and further properties that the code
    shows. *)

From Stdlib Require Import ZArith Lia Bool List.
From stdpp Require Import base option list.

Set Default Proof Using "Type".

(** ** Machine integers and the atomic primitives *)

(** [long] is a 32-bit two's complement integer on the Win32 target; the
    interlocked operations wrap around. *)
Definition wrap_long (z : Z) : Z := ((z + 2 ^ 31) mod 2 ^ 32 - 2 ^ 31)%Z.

(** Modelled from the spec: the anonymous enum of the class declaration
    (which is not part of the sources at hand) that names the three values
    of the command word, in declaration order.  The proofs use only that
    they are three distinct values of a [long]. *)
Definition SLEEP : Z := 0%Z.
Definition NOTIFY_ONE : Z := 1%Z.
Definition NOTIFY_ALL : Z := 2%Z.

(** Modelled from the spec: the AtomicWord collaborator.  Every primitive
    maps the content of the cell to the new content and the returned value.
    [exchange_and_add] returns the old value, the interlocked increment and
    decrement return the new one, and
    [BOOST_INTERLOCKED_COMPARE_EXCHANGE(dest, exchange, comparand)] stores
    [exchange] when the cell holds [comparand] and returns the old value. *)
Definition exchange_and_add (cell delta : Z) : Z * Z :=
  (wrap_long (cell + delta), cell).

Definition interlocked_increment (cell : Z) : Z * Z :=
  (wrap_long (cell + 1), wrap_long (cell + 1)).

Definition interlocked_decrement (cell : Z) : Z * Z :=
  (wrap_long (cell - 1), wrap_long (cell - 1)).

Definition interlocked_compare_exchange (cell exchange comparand : Z) : Z * Z :=
  (if Z.eqb cell comparand then exchange else cell, cell).

(** ** Mutexes *)

(** Modelled from the spec: the SharedMutex collaborator, an exclusive lock
    with [lock], [try_lock] and [unlock].  The content of a mutex is the
    thread that locked it last, if it is locked.  [lock] blocks (has no
    result) on a locked mutex; [unlock] needs no ownership: the algorithm
    lets a waiter unlock what a notifier locked. *)
Abbreviation mutex := (option nat) (only parsing).

Definition mutex_lock (t : nat) (m : mutex) : option mutex :=
  match m with
  | None => Some (Some t)
  | Some _ => None
  end.

Definition mutex_try_lock (t : nat) (m : mutex) : mutex * bool :=
  match m with
  | None => (Some t, true)
  | Some _ => (m, false)
  end.

Definition mutex_unlock (m : mutex) : mutex := None.

(** ** The condition object and the shared memory *)

Record condition := mkCondition {
  m_command : Z;
  m_num_waiters : Z;
  m_enter_mut : mutex;
  m_check_mut : mutex
}.

(** [interprocess_condition::interprocess_condition()], lines 18-22. *)
Definition constructed : condition :=
  mkCondition SLEEP 0%Z None None.

(** The shared memory: the condition, the external mutexes the callers pass
    by reference (named by a number) and the clock. *)
Record shared := mkShared {
  cv : condition;
  ext : nat -> mutex;
  clock : nat
}.

Definition set_command (v : Z) (s : shared) : shared :=
  mkShared (mkCondition v (m_num_waiters (cv s)) (m_enter_mut (cv s)) (m_check_mut (cv s)))
           (ext s) (clock s).

Definition set_num_waiters (v : Z) (s : shared) : shared :=
  mkShared (mkCondition (m_command (cv s)) v (m_enter_mut (cv s)) (m_check_mut (cv s)))
           (ext s) (clock s).

Definition set_enter_mut (v : mutex) (s : shared) : shared :=
  mkShared (mkCondition (m_command (cv s)) (m_num_waiters (cv s)) v (m_check_mut (cv s)))
           (ext s) (clock s).

Definition set_check_mut (v : mutex) (s : shared) : shared :=
  mkShared (mkCondition (m_command (cv s)) (m_num_waiters (cv s)) (m_enter_mut (cv s)) v)
           (ext s) (clock s).

Definition set_ext (m : nat) (v : mutex) (s : shared) : shared :=
  mkShared (cv s) (fun k => if Nat.eqb k m then v else ext s k) (clock s).

(** ** Threads *)

(** The locals of an activation of the three-argument [do_timed_wait]. *)
Record frame := mkFrame {
  tout_enabled : bool;
  abs_time : nat;
  mut : nat;
  now : nat;
  timed_out : bool;
  unlock_enter_mut : bool
}.

Definition set_now (v : nat) (f : frame) : frame :=
  mkFrame (tout_enabled f) (abs_time f) (mut f) v (timed_out f) (unlock_enter_mut f).

Definition set_timed_out (v : bool) (f : frame) : frame :=
  mkFrame (tout_enabled f) (abs_time f) (mut f) (now f) v (unlock_enter_mut f).

Definition set_unlock_enter_mut (v : bool) (f : frame) : frame :=
  mkFrame (tout_enabled f) (abs_time f) (mut f) (now f) (timed_out f) v.

(** Program points of [notify], lines 38-57. *)
Inductive notify_pc :=
| N46   (* m_enter_mut.lock() *)
| N49   (* exchange_and_add(&m_num_waiters, 0) *)
| N50   (* m_enter_mut.unlock(); return *)
| N55.  (* compare-exchange of m_command; return *)

(** Program points of [do_timed_wait], lines 70-182. *)
Inductive wait_pc :=
| W75   (* now = universal_time(); deadline test of line 79 *)
| W86   (* scoped_lock lock(m_enter_mut) *)
| W91   (* interlocked increment of m_num_waiters *)
| W94   (* mut.unlock() *)
| W95   (* end of the scope: m_enter_mut unlocked; locals of line 98 *)
| W105  (* exchange_and_add(&m_command, 0) == SLEEP *)
| W110  (* now = universal_time(); deadline test of line 112 *)
| W115  (* timed_out = m_enter_mut.try_lock() *)
| W134  (* interlocked decrement on the timeout path *)
| W142  (* scoped_lock lock(m_check_mut) *)
| W144  (* compare-exchange of m_command from NOTIFY_ONE to SLEEP *)
| W148  (* continue: the scoped lock leaves m_check_mut *)
| W156  (* interlocked decrement of the NOTIFY_ONE consumer *)
| W162  (* interlocked decrement on the NOTIFY_ALL path *)
| W166  (* compare-exchange of m_command from NOTIFY_ALL to SLEEP *)
| W168  (* break: the scoped lock leaves m_check_mut *)
| W175  (* if(unlock_enter_mut) m_enter_mut.unlock() *)
| W180. (* mut.lock(); return !timed_out *)

Inductive thread :=
| Idle
| InNotify (pc : notify_pc) (command : Z)
| InWait (pc : wait_pc) (fr : frame)
| Returning (r : option bool).

(** What a step did, for the histories below. *)
Inductive call :=
| CNotifyOne
| CNotifyAll
| CWait (m : nat)
| CTimedWait (abs : nat) (m : nat).

Inductive event :=
| EvTau
| EvCall (c : call)
| EvExpired             (* line 79: the deadline had passed at entry *)
| EvTimedOut            (* line 115: try_lock succeeded after the deadline *)
| EvContended           (* line 115: try_lock failed *)
| EvNotified (old new : Z)  (* line 55 *)
| EvObserved (result : Z)   (* line 144: what the compare-exchange returned *)
| EvReset (old new : Z)     (* line 166 *)
| EvReturn (r : option bool).

(** ** One step of [notify] *)

Definition notify_step (t : nat) (s : shared) (pc : notify_pc) (command : Z)
  : option (shared * thread * event) :=
  match pc with
  | N46 =>
      match mutex_lock t (m_enter_mut (cv s)) with
      | Some m => Some (set_enter_mut m s, InNotify N49 command, EvTau)
      | None => None
      end
  | N49 =>
      let '(v, old) := exchange_and_add (m_num_waiters (cv s)) 0 in
      let s := set_num_waiters v s in
      if Z.eqb old 0
      then Some (s, InNotify N50 command, EvTau)
      else Some (s, InNotify N55 command, EvTau)
  | N50 =>
      Some (set_enter_mut (mutex_unlock (m_enter_mut (cv s))) s, Returning None, EvTau)
  | N55 =>
      let '(v, old) := interlocked_compare_exchange (m_command (cv s)) command SLEEP in
      Some (set_command v s, Returning None, EvNotified old v)
  end.

(** ** One step of [do_timed_wait] *)

(** Line 132, the test that follows both exits of the inner loop. *)
Definition after_spin (fr : frame) : thread :=
  if tout_enabled fr && timed_out fr then InWait W134 fr else InWait W142 fr.

Definition wait_step (t : nat) (s : shared) (pc : wait_pc) (fr : frame)
  : option (shared * thread * event) :=
  match pc with
  | W75 =>
      let fr := set_now (clock s) fr in
      if tout_enabled fr && (abs_time fr <=? now fr)
      then Some (s, Returning (Some false), EvExpired)
      else Some (s, InWait W86 fr, EvTau)
  | W86 =>
      match mutex_lock t (m_enter_mut (cv s)) with
      | Some m => Some (set_enter_mut m s, InWait W91 fr, EvTau)
      | None => None
      end
  | W91 =>
      let '(v, _) := interlocked_increment (m_num_waiters (cv s)) in
      Some (set_num_waiters v s, InWait W94 fr, EvTau)
  | W94 =>
      Some (set_ext (mut fr) (mutex_unlock (ext s (mut fr))) s, InWait W95 fr, EvTau)
  | W95 =>
      Some (set_enter_mut (mutex_unlock (m_enter_mut (cv s))) s,
            InWait W105 (set_unlock_enter_mut false (set_timed_out false fr)), EvTau)
  | W105 =>
      let '(v, old) := exchange_and_add (m_command (cv s)) 0 in
      let s := set_command v s in
      if Z.eqb old SLEEP
      then if tout_enabled fr
           then Some (s, InWait W110 fr, EvTau)
           else Some (s, InWait W105 fr, EvTau)
      else Some (s, after_spin fr, EvTau)
  | W110 =>
      let fr := set_now (clock s) fr in
      if abs_time fr <=? now fr
      then Some (s, InWait W115 fr, EvTau)
      else Some (s, InWait W105 fr, EvTau)
  | W115 =>
      let '(m, ok) := mutex_try_lock t (m_enter_mut (cv s)) in
      let fr := set_timed_out ok fr in
      if ok
      then Some (set_enter_mut m s, after_spin fr, EvTimedOut)
      else Some (set_enter_mut m s, InWait W105 fr, EvContended)
  | W134 =>
      let '(v, _) := interlocked_decrement (m_num_waiters (cv s)) in
      Some (set_num_waiters v s, InWait W175 (set_unlock_enter_mut true fr), EvTau)
  | W142 =>
      match mutex_lock t (m_check_mut (cv s)) with
      | Some m => Some (set_check_mut m s, InWait W144 fr, EvTau)
      | None => None
      end
  | W144 =>
      let '(v, result) := interlocked_compare_exchange (m_command (cv s)) SLEEP NOTIFY_ONE in
      let s := set_command v s in
      if Z.eqb result SLEEP
      then Some (s, InWait W148 fr, EvObserved result)
      else if Z.eqb result NOTIFY_ONE
      then Some (s, InWait W156 (set_unlock_enter_mut true fr), EvObserved result)
      else Some (s, InWait W162 fr, EvObserved result)
  | W148 =>
      Some (set_check_mut (mutex_unlock (m_check_mut (cv s))) s, InWait W105 fr, EvTau)
  | W156 =>
      let '(v, _) := interlocked_decrement (m_num_waiters (cv s)) in
      Some (set_num_waiters v s, InWait W168 fr, EvTau)
  | W162 =>
      let '(v, r) := interlocked_decrement (m_num_waiters (cv s)) in
      let fr := set_unlock_enter_mut (Z.eqb r 0) fr in
      if unlock_enter_mut fr
      then Some (set_num_waiters v s, InWait W166 fr, EvTau)
      else Some (set_num_waiters v s, InWait W168 fr, EvTau)
  | W166 =>
      let '(v, old) := interlocked_compare_exchange (m_command (cv s)) SLEEP NOTIFY_ALL in
      Some (set_command v s, InWait W168 fr, EvReset old v)
  | W168 =>
      Some (set_check_mut (mutex_unlock (m_check_mut (cv s))) s, InWait W175 fr, EvTau)
  | W175 =>
      if unlock_enter_mut fr
      then Some (set_enter_mut (mutex_unlock (m_enter_mut (cv s))) s, InWait W180 fr, EvTau)
      else Some (s, InWait W180 fr, EvTau)
  | W180 =>
      match mutex_lock t (ext s (mut fr)) with
      | Some m => Some (set_ext (mut fr) m s, Returning (Some (negb (timed_out fr))), EvTau)
      | None => None
      end
  end.

(** ** The threads of the system *)

Definition thread_step (t : nat) (s : shared) (th : thread)
  : option (shared * thread * event) :=
  match th with
  | Idle => None
  | InNotify pc command => notify_step t s pc command
  | InWait pc fr => wait_step t s pc fr
  | Returning r => Some (s, Idle, EvReturn r)
  end.

(** [boost::posix_time::ptime()], the deadline [do_wait] passes along with
    [tout_enabled = false]; it is never compared. *)
Definition ptime_default : nat := 0.

(** Lines 28-36 and 59-68: the public entry points.  [notify_one] and
    [notify_all] are [notify] of their command; [do_wait] and the
    two-argument [do_timed_wait] are the three-argument [do_timed_wait]
    without and with a deadline, and [Returning] carries what that function
    returns ([do_wait] drops it).  The locals [now], [timed_out] and
    [unlock_enter_mut] are written (lines 75 and 98) before they are
    read. *)
Definition enter_call (c : call) : thread :=
  match c with
  | CNotifyOne => InNotify N46 NOTIFY_ONE
  | CNotifyAll => InNotify N46 NOTIFY_ALL
  | CWait m => InWait W75 (mkFrame false ptime_default m 0 false false)
  | CTimedWait abs m => InWait W75 (mkFrame true abs m 0 false false)
  end.

(** The contract of a condition variable: a waiting call is made by the
    owner of the external mutex it passes. *)
Definition call_allowed (t : nat) (s : shared) (c : call) : bool :=
  match c with
  | CNotifyOne | CNotifyAll => true
  | CWait m | CTimedWait _ m =>
      match ext s m with
      | Some o => Nat.eqb o t
      | None => false
      end
  end.

Record world := mkWorld {
  mem : shared;
  threads : list thread
}.

Inductive label :=
| Run (t : nat)                  (* thread [t] performs its next access *)
| Call (t : nat) (c : call)      (* idle thread [t] enters the condition *)
| UserLock (t : nat) (m : nat)   (* idle thread [t] locks an external mutex *)
| UserUnlock (t : nat) (m : nat) (* idle thread [t] unlocks one it owns *)
| Tick.                          (* time passes *)

Definition step (l : label) (w : world) : option (world * event) :=
  match l with
  | Run t =>
      match threads w !! t with
      | Some th =>
          match thread_step t (mem w) th with
          | Some (s, th', ev) => Some (mkWorld s (<[t := th']> (threads w)), ev)
          | None => None
          end
      | None => None
      end
  | Call t c =>
      match threads w !! t with
      | Some Idle =>
          if call_allowed t (mem w) c
          then Some (mkWorld (mem w) (<[t := enter_call c]> (threads w)), EvCall c)
          else None
      | _ => None
      end
  | UserLock t m =>
      match threads w !! t with
      | Some Idle =>
          match mutex_lock t (ext (mem w) m) with
          | Some v => Some (mkWorld (set_ext m v (mem w)) (threads w), EvTau)
          | None => None
          end
      | _ => None
      end
  | UserUnlock t m =>
      match threads w !! t with
      | Some Idle =>
          match ext (mem w) m with
          | Some o =>
              if Nat.eqb o t
              then Some (mkWorld (set_ext m (mutex_unlock (ext (mem w) m)) (mem w)) (threads w), EvTau)
              else None
          | None => None
          end
      | _ => None
      end
  | Tick =>
      Some (mkWorld (mkShared (cv (mem w)) (ext (mem w)) (S (clock (mem w)))) (threads w), EvTau)
  end.

(** The initial world: a freshly constructed condition, free external
    mutexes and [n] idle threads. *)
Definition init (n : nat) : world :=
  mkWorld (mkShared constructed (fun _ => None) 0) (replicate n Idle).

(** Histories, most recent step first. *)
Abbreviation history := (list (label * event)) (only parsing).

Inductive exec : world -> history -> world -> Prop :=
| exec_nil w : exec w [] w
| exec_step w h w1 l w2 ev :
    exec w h w1 -> step l w1 = Some (w2, ev) -> exec w ((l, ev) :: h) w2.

Definition reachable (w : world) : Prop :=
  exists n h, exec (init n) h w.

(** Running a schedule, oldest label first. *)
Fixpoint run (ls : list label) (w : world) (h : history) : option (world * history) :=
  match ls with
  | [] => Some (w, h)
  | l :: ls =>
      match step l w with
      | Some (w', ev) => run ls w' ((l, ev) :: h)
      | None => None
      end
  end.

(** * Vocabulary of the proofs *)

(** ** Counting threads *)

Fixpoint count (P : thread -> bool) (l : list thread) : nat :=
  match l with
  | [] => 0
  | x :: l => Nat.b2n (P x) + count P l
  end.

(** The threads that answer for [m_enter_mut] being locked: a notifier
    between its lock and its return, a waiter inside the scope of lines
    84-95, a waiter that won the try_lock of line 115, and a waiter that
    has taken a notification over and will unlock at line 176. *)
Definition holds_enter (th : thread) : bool :=
  match th with
  | InNotify (N49 | N50 | N55) _ => true
  | InWait (W91 | W94 | W95 | W134 | W156) _ => true
  | InWait (W168 | W175) fr => unlock_enter_mut fr
  | _ => false
  end.

(** Among them, the threads that locked [m_enter_mut] themselves. *)
Definition owns_enter (th : thread) : bool :=
  match th with
  | InNotify (N49 | N50 | N55) _ => true
  | InWait (W91 | W94 | W95 | W134) _ => true
  | InWait W175 fr => timed_out fr
  | _ => false
  end.

(** The threads inside the scope of the lock on [m_check_mut]. *)
Definition in_check (th : thread) : bool :=
  match th with
  | InWait (W144 | W148 | W156 | W162 | W166 | W168) _ => true
  | _ => false
  end.

(** The threads between their increment and their decrement of
    [m_num_waiters]. *)
Definition registered (th : thread) : bool :=
  match th with
  | InWait (W94 | W95 | W105 | W110 | W115 | W134 | W142 | W144 | W148 | W156 | W162) _ => true
  | _ => false
  end.

Definition at_reset (th : thread) : bool :=
  match th with
  | InWait W166 _ => true
  | _ => false
  end.

(** A pending notification answers for [m_enter_mut] too: the notifier has
    returned and left it locked. *)
Definition cmd_tok (c : Z) : nat := if Z.eqb c SLEEP then 0 else 1.

Definition mtok (m : option nat) : nat :=
  match m with
  | Some _ => 1
  | None => 0
  end.

(** ** What holds of a thread at each program point *)

Definition tinv (s : shared) (t : nat) (th : thread) : Prop :=
  match th with
  | Idle | Returning _ => True
  | InNotify pc c =>
      (c = NOTIFY_ONE \/ c = NOTIFY_ALL) /\
      match pc with
      | N46 => True
      | N49 | N50 => m_enter_mut (cv s) = Some t
      | N55 => m_enter_mut (cv s) = Some t /\ m_num_waiters (cv s) <> 0%Z
      end
  | InWait pc fr =>
      match pc with
      | W75 | W86 => ext s (mut fr) = Some t
      | W91 | W94 => ext s (mut fr) = Some t /\ m_enter_mut (cv s) = Some t
      | W95 => ext s (mut fr) <> Some t /\ m_enter_mut (cv s) = Some t
      | W105 | W142 =>
          ext s (mut fr) <> Some t /\ timed_out fr = false /\ unlock_enter_mut fr = false
      | W110 | W115 =>
          ext s (mut fr) <> Some t /\ timed_out fr = false /\ unlock_enter_mut fr = false /\
          tout_enabled fr = true
      | W134 =>
          ext s (mut fr) <> Some t /\ timed_out fr = true /\ unlock_enter_mut fr = false /\
          tout_enabled fr = true /\ m_enter_mut (cv s) = Some t
      | W144 | W148 =>
          ext s (mut fr) <> Some t /\ timed_out fr = false /\ unlock_enter_mut fr = false /\
          m_check_mut (cv s) = Some t
      | W156 =>
          ext s (mut fr) <> Some t /\ timed_out fr = false /\ unlock_enter_mut fr = true /\
          m_check_mut (cv s) = Some t
      | W162 =>
          ext s (mut fr) <> Some t /\ timed_out fr = false /\ unlock_enter_mut fr = false /\
          m_check_mut (cv s) = Some t /\ m_command (cv s) = NOTIFY_ALL
      | W166 =>
          ext s (mut fr) <> Some t /\ timed_out fr = false /\ unlock_enter_mut fr = true /\
          m_check_mut (cv s) = Some t /\ m_command (cv s) = NOTIFY_ALL /\
          m_num_waiters (cv s) = 0%Z
      | W168 =>
          ext s (mut fr) <> Some t /\ timed_out fr = false /\ m_check_mut (cv s) = Some t
      | W175 =>
          ext s (mut fr) <> Some t /\
          (timed_out fr = true ->
           unlock_enter_mut fr = true /\ tout_enabled fr = true /\ m_enter_mut (cv s) = Some t)
      | W180 => ext s (mut fr) <> Some t
      end
  end.

(** The parts of the shared memory [tinv] looks at, besides the mutexes. *)
Definition reads_command (th : thread) : bool :=
  match th with
  | InWait (W162 | W166) _ => true
  | _ => false
  end.

Definition reads_count (th : thread) : bool :=
  match th with
  | InNotify N55 _ | InWait W166 _ => true
  | _ => false
  end.

(** ** The invariant of the system *)

Record Inv (w : world) : Prop := mkInv {
  inv_cmd :
    m_command (cv (mem w)) = SLEEP \/ m_command (cv (mem w)) = NOTIFY_ONE \/
    m_command (cv (mem w)) = NOTIFY_ALL;
  inv_enter :
    count holds_enter (threads w) + cmd_tok (m_command (cv (mem w)))
    = mtok (m_enter_mut (cv (mem w)));
  inv_check : count in_check (threads w) = mtok (m_check_mut (cv (mem w)));
  inv_waiters :
    m_num_waiters (cv (mem w)) = wrap_long (Z.of_nat (count registered (threads w)));
  inv_pending :
    m_command (cv (mem w)) <> SLEEP -> m_num_waiters (cv (mem w)) = 0%Z ->
    1 <= count at_reset (threads w);
  inv_threads : forall t th, threads w !! t = Some th -> tinv (mem w) t th
}.

(** ** Histories *)

Definition acts (t : nat) (l : label) : bool :=
  match l with
  | Run u | Call u _ | UserLock u _ | UserUnlock u _ => Nat.eqb u t
  | Tick => false
  end.

(** The events that decide how a call ends. *)
Definition decisive (ev : event) : bool :=
  match ev with
  | EvCall _ | EvExpired | EvTimedOut | EvReturn _ => true
  | EvObserved r => negb (Z.eqb r SLEEP)
  | _ => false
  end.

Fixpoint cause (t : nat) (h : list (label * event)) : option event :=
  match h with
  | [] => None
  | (l, ev) :: h => if acts t l && decisive ev then Some ev else cause t h
  end.

Fixpoint last_call (t : nat) (h : list (label * event)) : option call :=
  match h with
  | [] => None
  | (l, EvCall c) :: h => if acts t l then Some c else last_call t h
  | _ :: h => last_call t h
  end.

Definition notified (c : option event) : Prop :=
  exists r, r <> SLEEP /\ c = Some (EvObserved r).

Definition call_of_frame (fr : frame) : call :=
  if tout_enabled fr then CTimedWait (abs_time fr) (mut fr) else CWait (mut fr).

Definition is_notify (c : call) : bool :=
  match c with
  | CNotifyOne | CNotifyAll => true
  | _ => false
  end.

Definition kinv (lc : option call) (c : option event) (th : thread) : Prop :=
  match th with
  | Idle => True
  | InNotify _ _ => exists cl, lc = Some cl /\ is_notify cl = true
  | Returning None => exists cl, lc = Some cl /\ is_notify cl = true
  | InWait pc fr =>
      lc = Some (call_of_frame fr) /\
      match pc with
      | W75 | W86 | W91 | W94 | W95 => c = Some (EvCall (call_of_frame fr))
      | W105 | W142 | W144 | W148 =>
          c = Some (EvCall (call_of_frame fr)) /\ timed_out fr = false
      | W110 | W115 =>
          c = Some (EvCall (call_of_frame fr)) /\ timed_out fr = false /\
          tout_enabled fr = true
      | W134 => c = Some EvTimedOut /\ timed_out fr = true /\ tout_enabled fr = true
      | W156 | W162 | W166 | W168 => notified c /\ timed_out fr = false
      | W175 | W180 =>
          (c = Some EvTimedOut /\ timed_out fr = true /\ tout_enabled fr = true) \/
          (notified c /\ timed_out fr = false)
      end
  | Returning (Some b) =>
      exists cl, lc = Some cl /\ is_notify cl = false /\
        ((b = false /\ (c = Some EvExpired \/ c = Some EvTimedOut) /\
          exists abs m, cl = CTimedWait abs m) \/
         (b = true /\ notified c))
  end.

Definition hinv (h : list (label * event)) (w : world) : Prop :=
  forall t th, threads w !! t = Some th -> kinv (last_call t h) (cause t h) th.

(** ** Counting events *)

Fixpoint occurrences (P : event -> bool) (h : list (label * event)) : nat :=
  match h with
  | [] => 0
  | (_, ev) :: h => Nat.b2n (P ev) + occurrences P h
  end.

(** Line 55 stored [c]. *)
Definition notified_with (c : Z) (ev : event) : bool :=
  match ev with
  | EvNotified _ new => Z.eqb new c
  | _ => false
  end.

(** Line 144 found NOTIFY_ONE, and stored SLEEP. *)
Definition consumed_one (ev : event) : bool :=
  match ev with
  | EvObserved r => Z.eqb r NOTIFY_ONE
  | _ => false
  end.

(** Line 166 ran. *)
Definition is_reset (ev : event) : bool :=
  match ev with
  | EvReset _ _ => true
  | _ => false
  end.

Definition pending (c : Z) (w : world) : nat :=
  if Z.eqb (m_command (cv (mem w))) c then 1 else 0.

(** ** Notifications in flight *)

(** The waiters that have taken a notification over and have not yet
    unlocked [m_enter_mut] for the notifier. *)
Definition consumer (th : thread) : bool :=
  match th with
  | InWait W156 _ => true
  | InWait (W168 | W175) fr => unlock_enter_mut fr && negb (timed_out fr)
  | _ => false
  end.

(** A notification is in flight from the compare-exchange of line 55 to
    the unlock of line 176 by the waiter that accounts for it. *)
Definition in_flight (w : world) : Prop :=
  m_command (cv (mem w)) <> SLEEP \/ 1 <= count consumer (threads w).

Definition inside_notify (th : thread) : bool :=
  match th with
  | InNotify (N49 | N50 | N55) _ => true
  | _ => false
  end.


(** ** Bringing a notification to its end *)

(** Some schedule from [w] stores SLEEP again, with exactly one event of
    the kind [P] on the way. *)
Definition completes (P : event -> bool) (w : world) : Prop :=
  exists h w', exec w h w' /\ m_command (cv (mem w')) = SLEEP /\
    occurrences P h = 1.
(** ** Scenarios *)

(** The world and the history that a schedule leads to from [n] idle
    threads (the initial world when the schedule cannot run). *)
Definition after (n : nat) (ls : list label) : world :=
  match run ls (init n) [] with
  | Some (w, _) => w
  | None => init n
  end.

Definition history_after (n : nat) (ls : list label) : list (label * event) :=
  match run ls (init n) [] with
  | Some (_, h) => h
  | None => []
  end.

(** Thread 0 locks mutex 0 and calls into the condition: it registers,
    hands the mutex over and spins. *)
Definition waiting (c : call) : list label :=
  [UserLock 0 0; Call 0 c; Run 0; Run 0; Run 0; Run 0; Run 0].

(** The deadline 1 passes while thread 0 spins: it stands before the
    try_lock of line 115. *)
Definition sc_deadline : list label :=
  waiting (CTimedWait 1 0) ++ [Tick; Run 0; Run 0].

(** Thread 1 notifies while thread 0 waits, and stands before the
    compare-exchange of line 55. *)
Definition sc_notifying (c : call) : list label :=
  waiting (CWait 0) ++ [Call 1 c; Run 1; Run 1].

(** Thread 1 has returned; thread 0 has seen the command and stands
    before the compare-exchange of line 144. *)
Definition sc_notified (c : call) : list label :=
  sc_notifying c ++ [Run 1; Run 1; Run 0; Run 0].

(** Thread 0 runs to the end of its wait. *)
Definition sc_released_one : list label :=
  sc_notified CNotifyOne ++ [Run 0; Run 0; Run 0; Run 0; Run 0; Run 0].

Definition sc_released_all : list label :=
  sc_notified CNotifyAll ++ [Run 0; Run 0; Run 0; Run 0; Run 0; Run 0; Run 0].


(** The locals of thread 0 in these scenarios. *)
Definition frame_plain : frame := mkFrame false ptime_default 0 0 false false.



(** * Vocabulary of the further properties *)

(** ** Threads inside the condition *)

(** The threads between their first lock and their last unlock inside the
    condition: a notifier past line 46, a waiter past line 86 and not yet
    past line 176. *)
Definition engaged (th : thread) : bool :=
  match th with
  | InNotify (N49 | N50 | N55) _ => true
  | InWait (W75 | W86 | W180) _ => false
  | InWait _ _ => true
  | _ => false
  end.

(** What keeps [m_enter_mut] locked on behalf of a notification: a command
    that is pending, the waiter that took one over and has not yet
    unlocked, a notifier past its lock. *)
Definition notifying (w : world) : nat :=
  cmd_tok (m_command (cv (mem w))) + count consumer (threads w)
  + count inside_notify (threads w).

(** ** Deadlines *)

(** What the clock says of a thread: [now] was read from it, the deadline
    had passed at that reading wherever the code has tested so, and a
    call that is returning [false] is a timed one past its deadline. *)
Definition dinv (s : shared) (lc : option call) (th : thread) : Prop :=
  match th with
  | InWait pc fr =>
      now fr <= clock s /\
      match pc with
      | W115 | W134 => abs_time fr <= now fr
      | W175 | W180 => timed_out fr = true -> abs_time fr <= now fr
      | _ => True
      end
  | Returning (Some false) => exists abs m, lc = Some (CTimedWait abs m) /\ abs <= clock s
  | _ => True
  end.

Definition deadlines (h : list (label * event)) (w : world) : Prop :=
  forall t th, threads w !! t = Some th -> dinv (mem w) (last_call t h) th.

(** ** Notifications since a call *)

(** A compare-exchange of line 55 has stored a command since thread [t]
    made its last call. *)
Fixpoint notified_since (t : nat) (h : list (label * event)) : bool :=
  match h with
  | [] => false
  | (l, EvCall _) :: h => if acts t l then false else notified_since t h
  | (_, EvNotified _ _) :: _ => true
  | _ :: h => notified_since t h
  end.

(** A waiter in the loop that can see a command, and a waiter on its way
    out with a notification, have had one stored since they called. *)
Definition ninv (s : shared) (ns : bool) (th : thread) : Prop :=
  match th with
  | InWait (W105 | W110 | W115 | W142 | W144 | W148) _ =>
      m_command (cv s) <> SLEEP -> ns = true
  | InWait (W156 | W162 | W166 | W168) _ => ns = true
  | InWait (W175 | W180) fr => timed_out fr = false -> ns = true
  | Returning (Some true) => ns = true
  | _ => True
  end.

Definition woken (h : list (label * event)) (w : world) : Prop :=
  forall t th, threads w !! t = Some th -> ninv (mem w) (notified_since t h) th.

(** ** Calls *)

(** The command a notifying call asks for. *)
Definition command_of (c : call) : option Z :=
  match c with
  | CNotifyOne => Some NOTIFY_ONE
  | CNotifyAll => Some NOTIFY_ALL
  | _ => None
  end.

(** The external mutex a waiting call passes. *)
Definition mutex_of (c : call) : option nat :=
  match c with
  | CWait m | CTimedWait _ m => Some m
  | _ => None
  end.

(** A thread inside [notify] carries the command of its call; a thread
    that is returning from a wait owns the mutex it passed. *)
Definition cinv (s : shared) (t : nat) (lc : option call) (th : thread) : Prop :=
  match th with
  | InNotify _ c => exists cl, lc = Some cl /\ command_of cl = Some c
  | Returning (Some _) =>
      exists cl m, lc = Some cl /\ mutex_of cl = Some m /\ ext s m = Some t
  | _ => True
  end.

Definition calls (h : list (label * event)) (w : world) : Prop :=
  forall t th, threads w !! t = Some th -> cinv (mem w) t (last_call t h) th.

(** ** Counting wake-ups *)

Definition returned_true (ev : event) : bool :=
  match ev with
  | EvReturn (Some true) => true
  | _ => false
  end.

(** The compare-exchange of line 144 found NOTIFY_ALL. *)
Definition observed_all (ev : event) : bool :=
  match ev with
  | EvObserved r => Z.eqb r NOTIFY_ALL
  | _ => false
  end.

(** The waiters on their way out with a notification: past the
    compare-exchange that found it, and not yet returned. *)
Definition leaving (th : thread) : bool :=
  match th with
  | InWait (W156 | W162 | W166 | W168) _ => true
  | InWait (W175 | W180) fr => negb (timed_out fr)
  | Returning (Some true) => true
  | _ => false
  end.

(** ** The entry mutex *)

(** Some schedule from [w] leads to a world where [m_enter_mut] is free. *)
Definition frees_enter (w : world) : Prop :=
  exists h w', exec w h w' /\ m_enter_mut (cv (mem w')) = None.

(** While a notification is in flight, [m_enter_mut] is locked by a thread
    that is not between its own lock and unlock: the notifier that has
    returned and left it locked. *)
Definition handed_over (w : world) : Prop :=
  in_flight w ->
  exists o th, m_enter_mut (cv (mem w)) = Some o /\ threads w !! o = Some th /\
    engaged th = false.

(** * Lemmas *)

(** ** Arithmetic of [long] *)

Lemma wrap_long_small z : (- 2 ^ 31 <= z < 2 ^ 31)%Z -> wrap_long z = z.
Proof. intros H. unfold wrap_long. rewrite Z.mod_small; lia. Qed.

Lemma wrap_long_range z : (- 2 ^ 31 <= wrap_long z < 2 ^ 31)%Z.
Proof. unfold wrap_long. pose proof (Z.mod_pos_bound (z + 2 ^ 31) (2 ^ 32)). lia. Qed.

Lemma wrap_long_idem z : wrap_long (wrap_long z) = wrap_long z.
Proof. apply wrap_long_small, wrap_long_range. Qed.

Lemma wrap_long_add z d : wrap_long (wrap_long z + d) = wrap_long (z + d).
Proof.
  unfold wrap_long.
  replace ((z + 2 ^ 31) mod 2 ^ 32 - 2 ^ 31 + d + 2 ^ 31)%Z
    with ((z + 2 ^ 31) mod 2 ^ 32 + d)%Z by lia.
  replace (z + d + 2 ^ 31)%Z with ((z + 2 ^ 31) + d)%Z by lia.
  now rewrite Zplus_mod_idemp_l.
Qed.

Lemma wrap_long_sub z d : wrap_long (wrap_long z - d) = wrap_long (z - d).
Proof. unfold Z.sub. apply wrap_long_add. Qed.

(** The two reads by an add of zero, lines 49 and 105. *)
Lemma cmd_read c :
  c = SLEEP \/ c = NOTIFY_ONE \/ c = NOTIFY_ALL -> wrap_long (c + 0) = c.
Proof. intros [-> | [-> | ->]]; reflexivity. Qed.

Lemma count_read (n : nat) : wrap_long (wrap_long (Z.of_nat n) + 0) = wrap_long (Z.of_nat n).
Proof. rewrite Z.add_0_r. apply wrap_long_idem. Qed.

(** ** Counting *)

Section Counting.

Variable P : thread -> bool.

Lemma count_insert (l : list thread) t a b :
  l !! t = Some a ->
  count P (<[t := b]> l) + Nat.b2n (P a) = count P l + Nat.b2n (P b).
Proof.
  revert t. induction l as [|x l IH]; intros [|t] H; simpl in *; try discriminate.
  - injection H as ->. lia.
  - specialize (IH _ H). lia.
Qed.

Lemma count_lookup (l : list thread) t a :
  l !! t = Some a -> P a = true -> 1 <= count P l.
Proof.
  revert t. induction l as [|x l IH]; intros [|t] H Ha; simpl in *; try discriminate.
  - injection H as ->. rewrite Ha. simpl. lia.
  - specialize (IH _ H Ha). lia.
Qed.

Lemma count_two (l : list thread) t u a b :
  l !! t = Some a -> l !! u = Some b -> t <> u ->
  P a = true -> P b = true -> 2 <= count P l.
Proof.
  revert t u. induction l as [|x l IH]; intros [|t] [|u] Ht Hu Hne Ha Hb; simpl in *;
    try discriminate; try congruence.
  - injection Ht as ->. rewrite Ha.
    pose proof (count_lookup l u b Hu Hb). simpl. lia.
  - injection Hu as ->. rewrite Hb.
    pose proof (count_lookup l t a Ht Ha). simpl. lia.
  - assert (t <> u) by congruence. specialize (IH _ _ Ht Hu H Ha Hb). lia.
Qed.

Lemma count_exists (l : list thread) :
  1 <= count P l -> exists t th, l !! t = Some th /\ P th = true.
Proof.
  induction l as [|x l IH]; simpl; [lia|].
  destruct (P x) eqn:E; simpl; intros H.
  - exists 0, x. auto.
  - destruct (IH H) as (t & th & Ht & Hp). exists (S t), th. auto.
Qed.

Lemma count_replicate n x : P x = false -> count P (replicate n x) = 0.
Proof. intros H. induction n; simpl; [easy|]. rewrite H, IHn. easy. Qed.

Lemma count_le_length (l : list thread) : count P l <= length l.
Proof. induction l as [|x l IH]; simpl; [lia|]. destruct (P x); simpl; lia. Qed.

Lemma count_le Q (l : list thread) :
  (forall th, P th = true -> Q th = true) -> count P l <= count Q l.
Proof.
  intros H. induction l as [|x l IH]; simpl; [lia|].
  specialize (H x). destruct (P x), (Q x); simpl; try lia.
  all: try (discriminate H; reflexivity).
Qed.

End Counting.

(** ** Records *)

Lemma set_command_same s : set_command (m_command (cv s)) s = s.
Proof. destruct s as [[] ? ?]; reflexivity. Qed.


Lemma frame_eta fr :
  mkFrame (tout_enabled fr) (abs_time fr) (mut fr) (now fr) (timed_out fr)
    (unlock_enter_mut fr) = fr.
Proof. destruct fr; reflexivity. Qed.

(** ** One step of one thread *)

Lemma step_run_inv w t w' ev :
  step (Run t) w = Some (w', ev) ->
  exists th s' th',
    threads w !! t = Some th /\ thread_step t (mem w) th = Some (s', th', ev) /\
    w' = mkWorld s' (<[t := th']> (threads w)).
Proof.
  simpl. destruct (threads w !! t) as [th|]; [|discriminate].
  destruct (thread_step t (mem w) th) as [[[s' th'] ev']|] eqn:E; [|discriminate].
  intros H. injection H as <- <-. exists th, s', th'. auto.
Qed.

Lemma step_run_at w t th s' th' ev :
  threads w !! t = Some th ->
  thread_step t (mem w) th = Some (s', th', ev) ->
  step (Run t) w = Some (mkWorld s' (<[t := th']> (threads w)), ev).
Proof. intros H1 H2. simpl. now rewrite H1, H2. Qed.

Lemma insert_lookup_same (l : list thread) t th x :
  l !! t = Some th -> <[t := x]> l !! t = Some x.
Proof. intros H. apply list_lookup_insert_eq. eapply lookup_lt_Some; eauto. Qed.

(** A step of [t] from a world whose thread [t] was just put in place. *)
Lemma step_next s l t th th0 s' th' ev :
  l !! t = Some th0 ->
  thread_step t s th = Some (s', th', ev) ->
  step (Run t) (mkWorld s (<[t := th]> l)) = Some (mkWorld s' (<[t := th']> l), ev).
Proof.
  intros H1 H2. simpl. rewrite (insert_lookup_same _ _ _ _ H1), H2.
  now rewrite list_insert_insert_eq.
Qed.

Lemma step_other_mem w l w' ev :
  step l w = Some (w', ev) ->
  (forall t, l <> Run t) ->
  cv (mem w') = cv (mem w).
Proof.
  intros H Hl. destruct l as [t|t c|t m|t m|]; simpl in H.
  - now elim (Hl t).
  - destruct (threads w !! t) as [[| | |]|]; try discriminate.
    destruct (call_allowed t (mem w) c); [|discriminate]. now injection H as <- <-.
  - destruct (threads w !! t) as [[| | |]|]; try discriminate.
    destruct (mutex_lock t (ext (mem w) m)); [|discriminate]. now injection H as <- <-.
  - destruct (threads w !! t) as [[| | |]|]; try discriminate.
    destruct (ext (mem w) m) as [o|]; [|discriminate].
    destruct (o =? t); [|discriminate]. now injection H as <- <-.
  - now injection H as <- <-.
Qed.


(** The cases of a step, from the equation [Hs] that says what
    [thread_step] returned. *)
Ltac step_cases Hs :=
  unfold thread_step, notify_step, wait_step, exchange_and_add, interlocked_increment,
    interlocked_decrement, interlocked_compare_exchange, mutex_lock, mutex_try_lock,
    mutex_unlock, after_spin in Hs;
  simpl in Hs;
  repeat match type of Hs with
  | context [match ?x with _ => _ end] =>
      lazymatch x with
      | context [match _ with _ => _ end] => fail
      | Z.eqb ?a ?b => destruct (Z.eqb_spec a b)
      | _ => destruct x eqn:?
      end; simpl in Hs
  end;
  try discriminate Hs;
  injection Hs as <- <- <-.

Ltac split_hyps :=
  repeat match goal with
  | H : _ /\ _ |- _ => destruct H
  end.

Ltac unfold_sets :=
  unfold set_command, set_num_waiters, set_enter_mut, set_check_mut, set_ext,
    set_now, set_timed_out, set_unlock_enter_mut in *; simpl in *.

Ltac split_flag g :=
  try match goal with
  | H : context [g ?f] |- _ => is_var f; destruct (g f) eqn:?
  end.

Ltac split_flags :=
  split_flag unlock_enter_mut; split_flag timed_out; split_flag tout_enabled;
  simpl in *.

Ltac other_label H :=
  simpl in H; repeat case_match; simplify_eq; simpl in *.

(** Only a thread that is returning produces [EvReturn]. *)
Lemma step_return w l w' r :
  step l w = Some (w', EvReturn r) ->
  exists t, l = Run t /\ threads w !! t = Some (Returning r) /\
    w' = mkWorld (mem w) (<[t := Idle]> (threads w)).
Proof.
  intros H. destruct l as [t|t c|t m|t m|].
  - pose proof H as H'. apply step_run_inv in H as (th & s' & th' & Ht & Hs & ->). exists t.
    destruct th as [|[] c|[] fr|r']; [discriminate Hs| .. ]; step_cases Hs; auto.
  - simpl in H. repeat case_match; simplify_eq.
  - simpl in H. repeat case_match; simplify_eq.
  - simpl in H. repeat case_match; simplify_eq.
  - simpl in H. simplify_eq.
Qed.

(** ** The invariant is kept *)

(** A thread is not concerned by what the others do to the parts of the
    memory it does not answer for. *)
Lemma tinv_stable s s' u th :
  tinv s u th ->
  (forall m, ext s' m = Some u <-> ext s m = Some u) ->
  (owns_enter th = true -> m_enter_mut (cv s') = m_enter_mut (cv s)) ->
  (in_check th = true -> m_check_mut (cv s') = m_check_mut (cv s)) ->
  (reads_command th = true -> m_command (cv s') = m_command (cv s)) ->
  (reads_count th = true -> m_num_waiters (cv s') = m_num_waiters (cv s)) ->
  tinv s' u th.
Proof.
  intros H He Ho Hc Hm Hn.
  destruct th as [|pc c|pc fr|r]; simpl in *; trivial.
  - destruct pc; simpl in *; intuition congruence.
  - destruct pc; simpl in *; rewrite ?He; intuition congruence.
Qed.

Lemma other_facts s u thu :
  tinv s u thu ->
  (owns_enter thu = true -> holds_enter thu = true /\ m_enter_mut (cv s) = Some u) /\
  (in_check thu = true -> m_check_mut (cv s) = Some u) /\
  (reads_command thu = true -> in_check thu = true /\ m_command (cv s) = NOTIFY_ALL) /\
  (reads_count thu = true ->
   holds_enter thu = true \/ (in_check thu = true /\ m_command (cv s) = NOTIFY_ALL)).
Proof.
  destruct thu as [|pc c|pc fr|r]; simpl; try (intuition discriminate);
    destruct pc; simpl; intuition (try discriminate; try congruence).
Qed.

Lemma threads_preserved s s' (l : list thread) t th' :
  (forall u thu, l !! u = Some thu -> tinv s u thu) ->
  t < length l ->
  tinv s' t th' ->
  (forall u thu, u <> t -> l !! u = Some thu -> tinv s u thu ->
     (forall m, ext s' m = Some u <-> ext s m = Some u) /\
     (owns_enter thu = true -> m_enter_mut (cv s') = m_enter_mut (cv s)) /\
     (in_check thu = true -> m_check_mut (cv s') = m_check_mut (cv s)) /\
     (reads_command thu = true -> m_command (cv s') = m_command (cv s)) /\
     (reads_count thu = true -> m_num_waiters (cv s') = m_num_waiters (cv s))) ->
  forall u thu, <[t := th']> l !! u = Some thu -> tinv s' u thu.
Proof.
  intros Hall Hlt Hown Hother u thu Hu.
  destruct (decide (u = t)) as [-> | Hne].
  - rewrite list_lookup_insert_eq in Hu by assumption. injection Hu as <-. assumption.
  - rewrite list_lookup_insert_ne in Hu by congruence.
    destruct (Hother u thu Hne Hu (Hall u thu Hu)) as (H1 & H2 & H3 & H4 & H5).
    apply (tinv_stable s s' u thu); auto.
Qed.

(** What the counts say about one thread: the threads that answer for a
    mutex exclude each other, and a pending command excludes them all. *)
Lemma enter_exclusive w t th :
  Inv w -> threads w !! t = Some th -> holds_enter th = true ->
  m_command (cv (mem w)) = SLEEP /\ m_enter_mut (cv (mem w)) <> None /\
  forall u thu, u <> t -> threads w !! u = Some thu -> holds_enter thu = false.
Proof.
  intros HI Ht Hh. pose proof (inv_enter w HI) as E.
  pose proof (count_lookup holds_enter _ _ _ Ht Hh) as H1.
  assert (mtok (m_enter_mut (cv (mem w))) <= 1) by (destruct (m_enter_mut _); simpl; lia).
  repeat split.
  - unfold cmd_tok in E. destruct (Z.eqb_spec (m_command (cv (mem w))) SLEEP); [easy|lia].
  - destruct (m_enter_mut _); [easy|simpl in *; lia].
  - intros u thu Hne Hu. destruct (holds_enter thu) eqn:Hb; [|easy].
    pose proof (count_two holds_enter _ _ _ _ _ Hu Ht Hne Hb Hh). lia.
Qed.

Lemma check_exclusive w t th :
  Inv w -> threads w !! t = Some th -> in_check th = true ->
  m_check_mut (cv (mem w)) <> None /\
  forall u thu, u <> t -> threads w !! u = Some thu -> in_check thu = false.
Proof.
  intros HI Ht Hh. pose proof (inv_check w HI) as E.
  pose proof (count_lookup in_check _ _ _ Ht Hh) as H1.
  assert (mtok (m_check_mut (cv (mem w))) <= 1) by (destruct (m_check_mut _); simpl; lia).
  split.
  - destruct (m_check_mut _); [easy|simpl in *; lia].
  - intros u thu Hne Hu. destruct (in_check thu) eqn:Hb; [|easy].
    pose proof (count_two in_check _ _ _ _ _ Hu Ht Hne Hb Hh). lia.
Qed.

Lemma command_exclusive w :
  Inv w -> m_command (cv (mem w)) <> SLEEP ->
  m_enter_mut (cv (mem w)) <> None /\
  forall u thu, threads w !! u = Some thu -> holds_enter thu = false.
Proof.
  intros HI Hc. pose proof (inv_enter w HI) as E.
  assert (mtok (m_enter_mut (cv (mem w))) <= 1) by (destruct (m_enter_mut _); simpl; lia).
  unfold cmd_tok in E. destruct (Z.eqb_spec (m_command (cv (mem w))) SLEEP); [easy|].
  split.
  - destruct (m_enter_mut _); [easy|simpl in *; lia].
  - intros u thu Hu. destruct (holds_enter thu) eqn:Hb; [|easy].
    pose proof (count_lookup holds_enter _ _ _ Hu Hb). lia.
Qed.

Lemma consumer_holds th : consumer th = true -> holds_enter th = true.
Proof.
  destruct th as [|[] ?|[] fr|]; simpl; try discriminate; auto.
  all: now intros [? _]%andb_true_iff.
Qed.

Ltac use_excl H := first [specialize (H eq_refl) | clear H].

Ltac count_arith :=
  unfold cmd_tok, mtok, SLEEP, NOTIFY_ONE, NOTIFY_ALL in *;
  repeat match goal with
  | H : context [Z.eqb ?a ?b] |- _ => destruct (Z.eqb_spec a b)
  | |- context [Z.eqb ?a ?b] => destruct (Z.eqb_spec a b)
  | H : context [match ?x with _ => _ end] |- _ => destruct x eqn:?
  | |- context [match ?x with _ => _ end] => destruct x eqn:?
  end;
  simpl in *; try lia; try congruence.

Ltac other_threads s l t Hall Hlt HE HC HN :=
  apply (threads_preserved s _ l t _ Hall Hlt);
  [ simpl; rewrite ?Nat.eqb_refl; intuition (try congruence)
  | let u := fresh "u" in let thu := fresh "thu" in
    let Hne := fresh "Hne" in let Hu := fresh "Hu" in let Htu := fresh "Htu" in
    intros u thu Hne Hu Htu;
    apply other_facts in Htu; destruct Htu as (F1 & F2 & F3 & F4);
    try (specialize (HE u thu Hne Hu));
    try (specialize (HC u thu Hne Hu));
    try (assert (Hns : m_command (cv s) <> SLEEP)
           by (unfold SLEEP, NOTIFY_ONE, NOTIFY_ALL in *; congruence);
         destruct (HN Hns) as [_ HN']; specialize (HN' u thu Hu));
    simpl; repeat split; try tauto; try reflexivity;
    try match goal with
        | |- context [Nat.eqb ?a ?b] =>
            destruct (Nat.eqb_spec a b); subst; intros; congruence
        end;
    let Hp := fresh "Hp" in
    intros Hp; try reflexivity; try congruence; exfalso;
    first [apply F1 in Hp | apply F2 in Hp | apply F3 in Hp | apply F4 in Hp];
    destruct_and?; destruct_or?; destruct_and?;
    unfold SLEEP, NOTIFY_ONE, NOTIFY_ALL in *; congruence ].

Lemma Inv_init n : Inv (init n).
Proof.
  constructor; simpl.
  - now left.
  - now rewrite count_replicate.
  - now rewrite count_replicate.
  - now rewrite count_replicate.
  - intros H; now elim H.
  - intros t th H. apply lookup_replicate in H as [-> _]. exact I.
Qed.

Lemma Inv_run w t w' ev : Inv w -> step (Run t) w = Some (w', ev) -> Inv w'.
Proof.
  intros HI H. unfold step in H.
  destruct (threads w !! t) as [th|] eqn:Ht; [|discriminate].
  destruct (thread_step t (mem w) th) as [[[s' th'] ev']|] eqn:Hs; [|discriminate].
  injection H as <- <-.
  pose proof (inv_threads w HI t th Ht) as Hth.
  pose proof (enter_exclusive w t th HI Ht) as HE.
  pose proof (check_exclusive w t th HI Ht) as HC.
  pose proof (command_exclusive w HI) as HN.
  pose proof (inv_cmd w HI) as Hcmd.
  pose proof (inv_enter w HI) as Hen.
  pose proof (inv_check w HI) as Hck.
  pose proof (inv_waiters w HI) as Hnw.
  pose proof (inv_threads w HI) as Hall.
  pose proof (inv_pending w HI) as Hpe.
  pose proof (count_insert at_reset _ _ _ th' Ht) as CA.
  pose proof (count_insert holds_enter _ _ _ th' Ht) as CE.
  pose proof (count_insert in_check _ _ _ th' Ht) as CC.
  pose proof (count_insert registered _ _ _ th' Ht) as CR.
  pose proof (lookup_lt_Some _ _ _ Ht) as Hlt.
  clear HI.
  destruct w as [s l]. simpl in *.
  pose proof (cmd_read _ Hcmd) as Rc.
  assert (Rn : wrap_long (m_num_waiters (cv s) + 0) = m_num_waiters (cv s))
    by (rewrite Hnw; apply count_read).
  destruct th as [|pc c|pc fr|r]; [discriminate| | |].
  3: injection Hs as <- <- <-; simpl in *.
  1,2: destruct pc; step_cases Hs; unfold_sets; split_hyps; split_flags;
      simpl in *; try congruence;
      use_excl HE; use_excl HC;
      try destruct HE as (HE1 & HE2 & HE); try destruct HC as (HC1 & HC);
      rewrite ?Rc, ?Rn; clear Rc Rn; try congruence.
  all: constructor; simpl.
  all: lazymatch goal with
       | |- _ \/ _ =>
           first [ assumption | left; reflexivity | right; assumption
                 | solve [intuition (subst; auto)] ]
       | |- _ = wrap_long _ =>
           rewrite ?Hnw, ?wrap_long_idem, ?wrap_long_add, ?wrap_long_sub; f_equal; lia
       | |- forall _ _, _ !! _ = _ -> _ => other_threads s l t Hall Hlt HE HC HN
       | |- _ =>
           clear Hnw HN Hall Hcmd; try clear HE; try clear HC;
           try (intros ? ?); destruct_or?; subst; count_arith
       end.
Qed.

Lemma Inv_call w t c w' ev : Inv w -> step (Call t c) w = Some (w', ev) -> Inv w'.
Proof.
  intros HI H. unfold step in H.
  destruct (threads w !! t) as [[| | |]|] eqn:Ht; try discriminate.
  destruct (call_allowed t (mem w) c) eqn:Hc; [|discriminate].
  injection H as <- <-.
  destruct HI as [Hcmd Hen Hck Hnw Hpe Hall].
  pose proof (count_insert at_reset _ _ _ (enter_call c) Ht) as CA.
  pose proof (count_insert holds_enter _ _ _ (enter_call c) Ht) as CE.
  pose proof (count_insert in_check _ _ _ (enter_call c) Ht) as CC.
  pose proof (count_insert registered _ _ _ (enter_call c) Ht) as CR.
  pose proof (lookup_lt_Some _ _ _ Ht) as Hlt.
  destruct w as [s l]; simpl in *.
  constructor; simpl; trivial.
  - destruct c; simpl in *; lia.
  - destruct c; simpl in *; lia.
  - rewrite Hnw. f_equal. destruct c; simpl in *; lia.
  - intros H1 H2. specialize (Hpe H1 H2). destruct c; simpl in *; lia.
  - apply (threads_preserved s s l t _ Hall Hlt).
    + destruct c; simpl in *; auto;
        destruct (ext s m) as [o|]; try discriminate;
        apply Nat.eqb_eq in Hc; congruence.
    + intros. repeat split; auto.
Qed.

Lemma Inv_ext w s' :
  Inv w -> cv s' = cv (mem w) ->
  (forall u thu, threads w !! u = Some thu -> thu <> Idle ->
     forall m, ext s' m = Some u <-> ext (mem w) m = Some u) ->
  Inv (mkWorld s' (threads w)).
Proof.
  intros [Hcmd Hen Hck Hnw Hpe Hall] Hcv Hext.
  constructor; simpl; rewrite ?Hcv; trivial.
  intros u thu Hu. destruct thu as [|pc c|pc fr|r] eqn:E; try exact I.
  all: apply (tinv_stable (mem w) s' u _ (Hall u _ Hu)); rewrite ?Hcv; auto.
  all: apply (Hext u _ Hu); discriminate.
Qed.

Lemma Inv_step w l w' ev : Inv w -> step l w = Some (w', ev) -> Inv w'.
Proof.
  intros HI H. destruct l as [t|t c|t m|t m|].
  - eapply Inv_run; eauto.
  - eapply Inv_call; eauto.
  - simpl in H. destruct (threads w !! t) as [[| | |]|] eqn:Ht; try discriminate.
    unfold mutex_lock in H. destruct (ext (mem w) m) eqn:Hm; [discriminate|].
    injection H as <- <-. apply Inv_ext; trivial.
    intros u thu Hu Hni k. simpl.
    destruct (Nat.eqb_spec k m); subst; [|tauto].
    split; intros; [|congruence].
    assert (u = t) by congruence. subst. congruence.
  - simpl in H. destruct (threads w !! t) as [[| | |]|] eqn:Ht; try discriminate.
    destruct (ext (mem w) m) as [o|] eqn:Hm; [|discriminate].
    destruct (Nat.eqb_spec o t); [|discriminate]. subst.
    injection H as <- <-. apply Inv_ext; trivial.
    intros u thu Hu Hni k. simpl. unfold mutex_unlock.
    destruct (Nat.eqb_spec k m); subst; [|tauto].
    split; intros; [congruence|].
    assert (u = t) by congruence. subst. congruence.
  - simpl in H. injection H as <- <-. apply Inv_ext; trivial.
Qed.

Lemma Inv_exec w h w' : Inv w -> exec w h w' -> Inv w'.
Proof. intros HI H. induction H; eauto using Inv_step. Qed.

Lemma Inv_reachable w : reachable w -> Inv w.
Proof. intros (n & h & H). eapply Inv_exec; eauto using Inv_init. Qed.

(** ** Case analysis of a step in a reachable world *)

(** Sets the stage for a case analysis of one step of thread [t]:
    [run_invert] names the thread and what the invariant says about it,
    [run_cases] goes through the program points. *)
Ltac run_invert HI H :=
  let th := fresh "th" in let s' := fresh "s'" in let th' := fresh "th'" in
  let Ht := fresh "Ht" in let Hs := fresh "Hs" in
  let Hth := fresh "Hth" in let HE := fresh "HE" in let HC := fresh "HC" in
  let HN := fresh "HN" in let Hcmd := fresh "Hcmd" in let Hnw := fresh "Hnw" in
  apply step_run_inv in H; destruct H as (th & s' & th' & Ht & Hs & ->);
  pose proof (inv_threads _ HI _ _ Ht) as Hth;
  pose proof (enter_exclusive _ _ _ HI Ht) as HE;
  pose proof (check_exclusive _ _ _ HI Ht) as HC;
  pose proof (command_exclusive _ HI) as HN;
  pose proof (inv_cmd _ HI) as Hcmd;
  pose proof (inv_waiters _ HI) as Hnw.

Ltac count_step P :=
  match goal with
  | Hs : thread_step _ _ _ = Some (_, ?th', _), Ht : threads _ !! _ = Some _ |- _ =>
      pose proof (count_insert P _ _ _ th' Ht)
  end.

Ltac run_cases :=
  match goal with
  | Hs : thread_step ?t (mem ?w) ?th = Some _,
    HE : holds_enter ?th = true -> _, HC : in_check ?th = true -> _,
    Hcmd : m_command (cv (mem ?w)) = SLEEP \/ _,
    Hnw : m_num_waiters (cv (mem ?w)) = _ |- _ =>
      let s := fresh "s" in let l := fresh "l" in
      let Rc := fresh "Rc" in let Rn := fresh "Rn" in
      let HE1 := fresh "HE1" in let HE2 := fresh "HE2" in let HC1 := fresh "HC1" in
      destruct w as [s l]; simpl in *;
      pose proof (cmd_read _ Hcmd) as Rc;
      assert (Rn : wrap_long (m_num_waiters (cv s) + 0) = m_num_waiters (cv s))
        by (rewrite Hnw; apply count_read);
      destruct th as [|[] ?|[] ?|?]; [discriminate Hs| .. ];
      step_cases Hs; unfold_sets; split_hyps; split_flags; try congruence;
      use_excl HE; use_excl HC;
      try destruct HE as (HE1 & HE2 & HE); try destruct HC as (HC1 & HC);
      rewrite ?Rc, ?Rn in *; clear Rc Rn; try congruence
  end.

Ltac run_setup HI H := run_invert HI H; run_cases.

(** ** Executions and histories *)

Lemma run_exec ls : forall w0 h0 w w' h',
  exec w0 h0 w -> run ls w h0 = Some (w', h') -> exec w0 h' w'.
Proof.
  induction ls as [|l ls IH]; intros w0 h0 w w' h' He Hr; simpl in Hr.
  - now injection Hr as <- <-.
  - destruct (step l w) as [[w1 ev]|] eqn:Hs; [|discriminate].
    eapply IH; [|exact Hr]. econstructor; eauto.
Qed.

Lemma after_exec n ls : exec (init n) (history_after n ls) (after n ls).
Proof.
  unfold history_after, after.
  destruct (run ls (init n) []) as [[w h]|] eqn:E.
  - eapply run_exec; [constructor|exact E].
  - constructor.
Qed.

Lemma after_reachable n ls : reachable (after n ls).
Proof. exists n, (history_after n ls). apply after_exec. Qed.

(** What an event says about the command word. *)
Lemma step_event w l w' ev :
  Inv w -> step l w = Some (w', ev) ->
  let c := m_command (cv (mem w)) in
  let c' := m_command (cv (mem w')) in
  match ev with
  | EvNotified old new =>
      old = SLEEP /\ c = SLEEP /\ c' = new /\ (new = NOTIFY_ONE \/ new = NOTIFY_ALL)
  | EvObserved r =>
      r = c /\ (if Z.eqb r NOTIFY_ONE then c' = SLEEP else c' = c)
  | EvReset old new => old = NOTIFY_ALL /\ new = SLEEP /\ c = NOTIFY_ALL /\ c' = SLEEP
  | _ => c' = c
  end.
Proof.
  intros HI H c c'. subst c c'.
  destruct l as [t|t cl|t m|t m|].
  2-5: assert (E : cv (mem w') = cv (mem w))
         by (eapply step_other_mem; eauto; discriminate).
  2-5: simpl in H; repeat case_match; simplify_eq; simpl in *; now rewrite ?E.
  run_setup HI H; simpl; try reflexivity; try congruence.
  all: unfold SLEEP, NOTIFY_ONE, NOTIFY_ALL in *; repeat split; auto; try congruence.
  all: repeat case_match; try congruence; try lia.
Qed.

Lemma accounting w0 h w :
  Inv w0 -> exec w0 h w ->
  occurrences consumed_one h + pending NOTIFY_ONE w
  = occurrences (notified_with NOTIFY_ONE) h + pending NOTIFY_ONE w0 /\
  occurrences is_reset h + pending NOTIFY_ALL w
  = occurrences (notified_with NOTIFY_ALL) h + pending NOTIFY_ALL w0.
Proof.
  intros HI H. induction H as [|w0 h w1 l w2 ev He IH Hs]; [split; reflexivity|].
  specialize (IH HI). pose proof (Inv_exec _ _ _ HI He) as HI1.
  pose proof (step_event _ _ _ _ HI1 Hs) as E. simpl in E.
  pose proof (inv_cmd _ HI1) as Hc1.
  pose proof (inv_cmd _ (Inv_step _ _ _ _ HI1 Hs)) as Hc2.
  unfold pending in *. simpl.
  destruct ev; simpl; unfold SLEEP, NOTIFY_ONE, NOTIFY_ALL in *;
    repeat match goal with
    | H : _ /\ _ |- _ => destruct H
    | H : context [Z.eqb ?a ?b] |- _ => destruct (Z.eqb_spec a b)
    | |- context [Z.eqb ?a ?b] => destruct (Z.eqb_spec a b)
    end; simpl in *; try lia.
Qed.

Lemma hinv_init n : hinv [] (init n).
Proof. intros t th H. apply lookup_replicate in H as [-> _]. exact I. Qed.

Lemma history_other t l ev h :
  acts t l = false \/ ev = EvTau ->
  last_call t ((l, ev) :: h) = last_call t h /\ cause t ((l, ev) :: h) = cause t h.
Proof.
  intros [H | ->]; simpl.
  - rewrite H. simpl. now destruct ev.
  - now rewrite andb_false_r.
Qed.

Lemma hinv_step h w l w' ev :
  hinv h w -> step l w = Some (w', ev) -> hinv ((l, ev) :: h) w'.
Proof.
  intros HK H u thu Hu.
  destruct l as [t|t c|t m|t m|].
  - apply step_run_inv in H as (th & s' & th' & Ht & Hs & ->). simpl in Hu.
    destruct (decide (u = t)) as [-> | Hne].
    + rewrite list_lookup_insert_eq in Hu by (eapply lookup_lt_Some; eauto).
      injection Hu as <-. specialize (HK t th Ht).
      simpl. rewrite Nat.eqb_refl. simpl.
      destruct th as [|[] c|[] fr|r]; [discriminate Hs| .. ];
        step_cases Hs; simpl in *; unfold call_of_frame, notified in *; simpl in *;
        split_hyps; split_flags; simpl in *; try congruence.
      all: repeat match goal with
           | |- context [Z.eqb ?a ?b] => destruct (Z.eqb_spec a b); try congruence
           end; simpl.
      all: naive_solver.
    + rewrite list_lookup_insert_ne in Hu by congruence.
      destruct (history_other u (Run t) ev h) as [-> ->]; [|now apply HK].
      left. simpl. now apply Nat.eqb_neq.
  - simpl in H. destruct (threads w !! t) as [[| | |]|] eqn:Ht; try discriminate.
    destruct (call_allowed t (mem w) c); [|discriminate]. injection H as <- <-.
    simpl in Hu. destruct (decide (u = t)) as [-> | Hne].
    + rewrite list_lookup_insert_eq in Hu by (eapply lookup_lt_Some; eauto).
      injection Hu as <-. simpl. rewrite Nat.eqb_refl. simpl.
      destruct c; simpl; eauto.
    + rewrite list_lookup_insert_ne in Hu by congruence.
      destruct (history_other u (Call t c) (EvCall c) h) as [-> ->]; [|now apply HK].
      left. simpl. now apply Nat.eqb_neq.
  - simpl in H. destruct (threads w !! t) as [[| | |]|] eqn:Ht; try discriminate.
    destruct (mutex_lock t (ext (mem w) m)); [|discriminate]. injection H as <- <-.
    destruct (history_other u (UserLock t m) EvTau h) as [-> ->]; [now right|now apply HK].
  - simpl in H. destruct (threads w !! t) as [[| | |]|] eqn:Ht; try discriminate.
    destruct (ext (mem w) m) as [o|]; [|discriminate].
    destruct (o =? t); [|discriminate]. injection H as <- <-.
    destruct (history_other u (UserUnlock t m) EvTau h) as [-> ->]; [now right|now apply HK].
  - simpl in H. injection H as <- <-.
    destruct (history_other u Tick EvTau h) as [-> ->]; [now right|now apply HK].
Qed.

Lemma hinv_exec n h w : exec (init n) h w -> hinv h w.
Proof.
  intros H. remember (init n) as w0 eqn:E. induction H; subst.
  - apply hinv_init.
  - eapply hinv_step; eauto.
Qed.

(** ** The two ends of the protocol *)

(** While a notifier is between its lock and its unlock or return, no
    other thread changes the command, the count or [m_enter_mut]. *)
Lemma notify_section_stable w t pc c l w' ev :
  reachable w -> threads w !! t = Some (InNotify pc c) -> pc <> N46 ->
  step l w = Some (w', ev) -> l <> Run t ->
  m_command (cv (mem w')) = m_command (cv (mem w)) /\
  m_num_waiters (cv (mem w')) = m_num_waiters (cv (mem w)) /\
  m_enter_mut (cv (mem w')) = m_enter_mut (cv (mem w)) /\
  threads w' !! t = Some (InNotify pc c).
Proof.
  intros Hr Ht Hpc H Hl. pose proof (Inv_reachable w Hr) as HI.
  assert (Hh : holds_enter (InNotify pc c) = true) by (destruct pc; [now elim Hpc|reflexivity..]).
  destruct (enter_exclusive w t _ HI Ht Hh) as (Hc & He & Hx).
  destruct l as [u|u cl|u m|u m|].
  2: { simpl in H. destruct (threads w !! u) as [[| | |]|] eqn:Hu; try discriminate.
       destruct (call_allowed u (mem w) cl); [|discriminate]. injection H as <- <-.
       simpl. repeat split. rewrite list_lookup_insert_ne; [assumption|congruence]. }
  2-4: other_label H; auto.
  assert (Hne : u <> t) by congruence.
  pose proof (fun thu => Hx u thu Hne) as Hx'.
  run_invert HI H. specialize (Hx' _ Ht0).
  assert (Ht' : <[u := th']> (threads w) !! t = Some (InNotify pc c))
    by (rewrite list_lookup_insert_ne; [assumption|congruence]).
  run_cases; simpl in *; try discriminate; try congruence; auto.
  all: unfold SLEEP, NOTIFY_ONE, NOTIFY_ALL in *; try congruence.
Qed.

(** The early return of line 79 touches nothing but the thread itself. *)
Lemma expired_step w t fr :
  threads w !! t = Some (InWait W75 fr) ->
  tout_enabled fr = true -> abs_time fr <= clock (mem w) ->
  step (Run t) w
  = Some (mkWorld (mem w) (<[t := Returning (Some false)]> (threads w)), EvExpired).
Proof.
  intros Ht He Ha. apply (step_run_at w t _ _ _ _ Ht). simpl.
  rewrite He. apply Nat.leb_le in Ha. rewrite Ha. reflexivity.
Qed.

(** ** Notifications can be brought to their end *)

(** Whatever the reachable world, a command that is pending can be taken
    over: the waiters need nothing from the other threads to do so. *)

Lemma exec_trans w h1 w1 h2 w2 :
  exec w h1 w1 -> exec w1 h2 w2 -> exec w (h2 ++ h1) w2.
Proof.
  intros H1 H2. induction H2 as [|w1 h2 w2 l w3 ev H2 IH Hs]; [assumption|].
  simpl. econstructor; eauto.
Qed.

Lemma occurrences_app P h1 h2 :
  occurrences P (h1 ++ h2) = occurrences P h1 + occurrences P h2.
Proof. induction h1 as [|[l ev] h1 IH]; simpl; [reflexivity|]. rewrite IH. lia. Qed.

Lemma reachable_step w l w' ev : reachable w -> step l w = Some (w', ev) -> reachable w'.
Proof. intros (n & h & H) Hs. exists n, ((l, ev) :: h). econstructor; eauto. Qed.

Lemma completes_step P w l w1 ev :
  step l w = Some (w1, ev) -> P ev = false -> completes P w1 -> completes P w.
Proof.
  intros Hs Hev (h & w' & He & Hc & Ho).
  exists (h ++ [(l, ev)]), w'. split; [|split; [assumption|]].
  - eapply exec_trans; [|exact He]. econstructor; [constructor|exact Hs].
  - rewrite occurrences_app. simpl. rewrite Hev. simpl. lia.
Qed.

(** A NOTIFY_ONE is taken over by one compare-exchange of line 144. *)
Lemma consume_at_144 w u fr :
  m_command (cv (mem w)) = NOTIFY_ONE ->
  threads w !! u = Some (InWait W144 fr) -> completes consumed_one w.
Proof.
  intros Hc Hu.
  exists [(Run u, EvObserved NOTIFY_ONE)],
         (mkWorld (set_command SLEEP (mem w))
            (<[u := InWait W156 (set_unlock_enter_mut true fr)]> (threads w))).
  split; [|split; reflexivity].
  econstructor; [constructor|]. apply (step_run_at w u _ _ _ _ Hu). simpl.
  unfold interlocked_compare_exchange. rewrite Hc. reflexivity.
Qed.

Lemma consume_at_142 w u fr :
  reachable w -> m_command (cv (mem w)) = NOTIFY_ONE ->
  m_check_mut (cv (mem w)) = None ->
  threads w !! u = Some (InWait W142 fr) -> completes consumed_one w.
Proof.
  intros Hr Hc Hk Hu.
  assert (Hs : step (Run u) w
               = Some (mkWorld (set_check_mut (Some u) (mem w))
                         (<[u := InWait W144 fr]> (threads w)), EvTau)).
  { apply (step_run_at w u _ _ _ _ Hu). simpl. rewrite Hk. reflexivity. }
  apply (completes_step _ _ _ _ _ Hs eq_refl).
  apply (consume_at_144 _ u fr); [exact Hc|].
  simpl. eapply insert_lookup_same; eauto.
Qed.

Lemma consume_at_105 w u fr :
  reachable w -> m_command (cv (mem w)) = NOTIFY_ONE ->
  m_check_mut (cv (mem w)) = None ->
  threads w !! u = Some (InWait W105 fr) -> completes consumed_one w.
Proof.
  intros Hr Hc Hk Hu.
  pose proof (inv_threads _ (Inv_reachable _ Hr) _ _ Hu) as (_ & Hto & _).
  assert (Hs : step (Run u) w
               = Some (mkWorld (mem w) (<[u := InWait W142 fr]> (threads w)), EvTau)).
  { apply (step_run_at w u _ _ _ _ Hu). simpl. unfold exchange_and_add.
    rewrite Hc. simpl. unfold after_spin. rewrite Hto, andb_false_r.
    change (wrap_long (NOTIFY_ONE + 0)) with NOTIFY_ONE.
    replace (set_command NOTIFY_ONE (mem w)) with (mem w); [reflexivity|].
    rewrite <- Hc. symmetry. apply set_command_same. }
  apply (completes_step _ _ _ _ _ Hs eq_refl).
  apply (consume_at_142 _ u fr); try assumption.
  - eapply reachable_step; eauto.
  - simpl. eapply insert_lookup_same; eauto.
Qed.

Lemma consume_at_115 w u fr :
  reachable w -> m_command (cv (mem w)) = NOTIFY_ONE ->
  m_check_mut (cv (mem w)) = None ->
  threads w !! u = Some (InWait W115 fr) -> completes consumed_one w.
Proof.
  intros Hr Hc Hk Hu.
  assert (Hns : m_command (cv (mem w)) <> SLEEP) by (rewrite Hc; discriminate).
  destruct (command_exclusive _ (Inv_reachable _ Hr) Hns) as [He _].
  destruct (m_enter_mut (cv (mem w))) as [o|] eqn:Hm; [|now elim He].
  assert (Hs : step (Run u) w
               = Some (mkWorld (set_enter_mut (Some o) (mem w))
                         (<[u := InWait W105 (set_timed_out false fr)]> (threads w)),
                       EvContended)).
  { apply (step_run_at w u _ _ _ _ Hu). simpl. rewrite Hm. reflexivity. }
  apply (completes_step _ _ _ _ _ Hs eq_refl).
  apply (consume_at_105 _ u (set_timed_out false fr)); try assumption.
  - eapply reachable_step; eauto.
  - simpl. eapply insert_lookup_same; eauto.
Qed.

Lemma consume_at_110 w u fr :
  reachable w -> m_command (cv (mem w)) = NOTIFY_ONE ->
  m_check_mut (cv (mem w)) = None ->
  threads w !! u = Some (InWait W110 fr) -> completes consumed_one w.
Proof.
  intros Hr Hc Hk Hu.
  destruct (abs_time fr <=? clock (mem w)) eqn:Hd.
  - assert (Hs : step (Run u) w
                 = Some (mkWorld (mem w)
                           (<[u := InWait W115 (set_now (clock (mem w)) fr)]> (threads w)),
                         EvTau)).
    { apply (step_run_at w u _ _ _ _ Hu). simpl. rewrite Hd. reflexivity. }
    apply (completes_step _ _ _ _ _ Hs eq_refl).
    apply (consume_at_115 _ u (set_now (clock (mem w)) fr)); try assumption.
    + eapply reachable_step; eauto.
    + simpl. eapply insert_lookup_same; eauto.
  - assert (Hs : step (Run u) w
                 = Some (mkWorld (mem w)
                           (<[u := InWait W105 (set_now (clock (mem w)) fr)]> (threads w)),
                         EvTau)).
    { apply (step_run_at w u _ _ _ _ Hu). simpl. rewrite Hd. reflexivity. }
    apply (completes_step _ _ _ _ _ Hs eq_refl).
    apply (consume_at_105 _ u (set_now (clock (mem w)) fr)); try assumption.
    + eapply reachable_step; eauto.
    + simpl. eapply insert_lookup_same; eauto.
Qed.

(** With the checking section free, a registered waiter can do it. *)
Lemma consume_check_free w :
  reachable w -> m_command (cv (mem w)) = NOTIFY_ONE ->
  m_check_mut (cv (mem w)) = None -> completes consumed_one w.
Proof.
  intros Hr Hc Hk. pose proof (Inv_reachable _ Hr) as HI.
  assert (Hns : m_command (cv (mem w)) <> SLEEP) by (rewrite Hc; discriminate).
  destruct (command_exclusive _ HI Hns) as [He Hno].
  assert (Hreg : 1 <= count registered (threads w)).
  { assert (Hnz : m_num_waiters (cv (mem w)) <> 0%Z).
    { intros Hz. pose proof (inv_pending _ HI Hns Hz) as Hp.
      apply count_exists in Hp as (v & thv & Hv & Hx).
      destruct thv as [|[] ?|[] frv|]; try discriminate.
      pose proof (inv_threads _ HI _ _ Hv) as Htv. simpl in Htv.
      destruct Htv as (_ & _ & _ & _ & Hcv & _). rewrite Hc in Hcv. discriminate. }
    rewrite (inv_waiters _ HI) in Hnz.
    destruct (count registered (threads w)); [now elim Hnz|lia]. }
  apply count_exists in Hreg as (u & thu & Hu & Hreg).
  pose proof (Hno u thu Hu) as Hh.
  assert (Hin : in_check thu = false).
  { destruct (in_check thu) eqn:E; [|reflexivity].
    pose proof (count_lookup in_check _ _ _ Hu E) as Hge.
    rewrite (inv_check _ HI), Hk in Hge. simpl in Hge. lia. }
  destruct thu as [|[] ?|[] fru|]; try discriminate.
  - eapply consume_at_105; eauto.
  - eapply consume_at_110; eauto.
  - eapply consume_at_115; eauto.
  - eapply consume_at_142; eauto.
Qed.

Theorem notify_one_can_be_consumed w :
  reachable w -> m_command (cv (mem w)) = NOTIFY_ONE -> completes consumed_one w.
Proof.
  intros Hr Hc. pose proof (Inv_reachable _ Hr) as HI.
  destruct (m_check_mut (cv (mem w))) as [o|] eqn:Hk; [|now apply consume_check_free].
  assert (Hns : m_command (cv (mem w)) <> SLEEP) by (rewrite Hc; discriminate).
  destruct (command_exclusive _ HI Hns) as [He Hno].
  assert (Hin : 1 <= count in_check (threads w)).
  { rewrite (inv_check _ HI), Hk. simpl. lia. }
  apply count_exists in Hin as (v & thv & Hv & Hin).
  pose proof (Hno v thv Hv) as Hh.
  pose proof (inv_threads _ HI _ _ Hv) as Htv.
  destruct thv as [|[] ?|[] frv|]; try discriminate; simpl in Htv, Hh.
  - (* W144 *) eapply consume_at_144; eauto.
  - (* W148 *)
    assert (Hs : step (Run v) w
                 = Some (mkWorld (set_check_mut None (mem w))
                           (<[v := InWait W105 frv]> (threads w)), EvTau)).
    { apply (step_run_at w v _ _ _ _ Hv). reflexivity. }
    apply (completes_step _ _ _ _ _ Hs eq_refl).
    apply consume_check_free; [eapply reachable_step; eauto|assumption|reflexivity].
  - (* W162 *) destruct Htv as (_ & _ & _ & _ & Hx). rewrite Hc in Hx. discriminate.
  - (* W166 *) destruct Htv as (_ & _ & _ & _ & Hx & _). rewrite Hc in Hx. discriminate.
  - (* W168 *)
    assert (Hs : step (Run v) w
                 = Some (mkWorld (set_check_mut None (mem w))
                           (<[v := InWait W175 frv]> (threads w)), EvTau)).
    { apply (step_run_at w v _ _ _ _ Hv). reflexivity. }
    apply (completes_step _ _ _ _ _ Hs eq_refl).
    apply consume_check_free; [eapply reachable_step; eauto|assumption|reflexivity].
Qed.

(** A NOTIFY_ALL is brought to its end by the registered waiters leaving
    one after the other; the induction is on their number. *)

Lemma registered_step_down (l : list thread) t a b :
  l !! t = Some a -> registered a = true -> registered b = false ->
  count registered (<[t := b]> l) < count registered l.
Proof.
  intros H Ha Hb. pose proof (count_insert registered l t a b H) as E.
  rewrite Ha, Hb in E. simpl in E. lia.
Qed.

Lemma registered_step_same (l : list thread) t a b :
  l !! t = Some a -> registered a = registered b ->
  count registered (<[t := b]> l) = count registered l.
Proof.
  intros H Hab. pose proof (count_insert registered l t a b H) as E.
  rewrite Hab in E. lia.
Qed.

Lemma reset_at_166 w u fr :
  reachable w -> threads w !! u = Some (InWait W166 fr) -> completes is_reset w.
Proof.
  intros Hr Hu.
  pose proof (inv_threads _ (Inv_reachable _ Hr) _ _ Hu) as (_ & _ & _ & _ & Hc & _).
  exists [(Run u, EvReset NOTIFY_ALL SLEEP)],
         (mkWorld (set_command SLEEP (mem w)) (<[u := InWait W168 fr]> (threads w))).
  split; [|split; reflexivity].
  econstructor; [constructor|]. apply (step_run_at w u _ _ _ _ Hu). simpl.
  unfold interlocked_compare_exchange. rewrite Hc. reflexivity.
Qed.

Section Release.

Variable k : nat.
Hypothesis IH : forall w, reachable w -> m_command (cv (mem w)) = NOTIFY_ALL ->
  count registered (threads w) < k -> completes is_reset w.

Lemma reset_at_162 w u fr :
  reachable w -> count registered (threads w) <= k ->
  threads w !! u = Some (InWait W162 fr) -> completes is_reset w.
Proof using IH.
  intros Hr Hk Hu.
  pose proof (inv_threads _ (Inv_reachable _ Hr) _ _ Hu) as (_ & _ & _ & _ & Hc).
  destruct (Z.eqb (snd (interlocked_decrement (m_num_waiters (cv (mem w))))) 0) eqn:Hz.
  - assert (Hs : step (Run u) w
                 = Some (mkWorld (set_num_waiters
                                    (fst (interlocked_decrement (m_num_waiters (cv (mem w)))))
                                    (mem w))
                           (<[u := InWait W166 (set_unlock_enter_mut true fr)]> (threads w)),
                         EvTau)).
    { apply (step_run_at w u _ _ _ _ Hu). simpl. simpl in Hz. rewrite Hz. reflexivity. }
    apply (completes_step _ _ _ _ _ Hs eq_refl).
    eapply reset_at_166; [eapply reachable_step; eauto|].
    simpl. eapply insert_lookup_same; eauto.
  - assert (Hs : step (Run u) w
                 = Some (mkWorld (set_num_waiters
                                    (fst (interlocked_decrement (m_num_waiters (cv (mem w)))))
                                    (mem w))
                           (<[u := InWait W168 (set_unlock_enter_mut false fr)]> (threads w)),
                         EvTau)).
    { apply (step_run_at w u _ _ _ _ Hu). simpl. simpl in Hz. rewrite Hz. reflexivity. }
    apply (completes_step _ _ _ _ _ Hs eq_refl).
    apply IH; [eapply reachable_step; eauto|exact Hc|].
    simpl. eapply Nat.lt_le_trans; [|exact Hk].
    eapply registered_step_down; eauto.
Qed.

Lemma reset_at_144 w u fr :
  reachable w -> m_command (cv (mem w)) = NOTIFY_ALL ->
  count registered (threads w) <= k ->
  threads w !! u = Some (InWait W144 fr) -> completes is_reset w.
Proof using IH.
  intros Hr Hc Hk Hu.
  assert (Hs : step (Run u) w
               = Some (mkWorld (mem w) (<[u := InWait W162 fr]> (threads w)),
                       EvObserved NOTIFY_ALL)).
  { apply (step_run_at w u _ _ _ _ Hu). simpl.
    unfold interlocked_compare_exchange. rewrite Hc. simpl.
    replace (set_command NOTIFY_ALL (mem w)) with (mem w); [reflexivity|].
    rewrite <- Hc. symmetry. apply set_command_same. }
  apply (completes_step _ _ _ _ _ Hs eq_refl).
  apply (reset_at_162 _ u fr); [eapply reachable_step; eauto| |].
  - simpl. erewrite registered_step_same; eauto.
  - simpl. eapply insert_lookup_same; eauto.
Qed.

Lemma reset_at_142 w u fr :
  reachable w -> m_command (cv (mem w)) = NOTIFY_ALL ->
  count registered (threads w) <= k ->
  m_check_mut (cv (mem w)) = None ->
  threads w !! u = Some (InWait W142 fr) -> completes is_reset w.
Proof using IH.
  intros Hr Hc Hk Hf Hu.
  assert (Hs : step (Run u) w
               = Some (mkWorld (set_check_mut (Some u) (mem w))
                         (<[u := InWait W144 fr]> (threads w)), EvTau)).
  { apply (step_run_at w u _ _ _ _ Hu). simpl. rewrite Hf. reflexivity. }
  apply (completes_step _ _ _ _ _ Hs eq_refl).
  apply (reset_at_144 _ u fr); [eapply reachable_step; eauto|exact Hc| |].
  - simpl. erewrite registered_step_same; eauto.
  - simpl. eapply insert_lookup_same; eauto.
Qed.

Lemma reset_at_105 w u fr :
  reachable w -> m_command (cv (mem w)) = NOTIFY_ALL ->
  count registered (threads w) <= k ->
  m_check_mut (cv (mem w)) = None ->
  threads w !! u = Some (InWait W105 fr) -> completes is_reset w.
Proof using IH.
  intros Hr Hc Hk Hf Hu.
  pose proof (inv_threads _ (Inv_reachable _ Hr) _ _ Hu) as (_ & Hto & _).
  assert (Hs : step (Run u) w
               = Some (mkWorld (mem w) (<[u := InWait W142 fr]> (threads w)), EvTau)).
  { apply (step_run_at w u _ _ _ _ Hu). simpl. unfold exchange_and_add.
    rewrite Hc. simpl. unfold after_spin. rewrite Hto, andb_false_r.
    change (wrap_long (NOTIFY_ALL + 0)) with NOTIFY_ALL.
    replace (set_command NOTIFY_ALL (mem w)) with (mem w); [reflexivity|].
    rewrite <- Hc. symmetry. apply set_command_same. }
  apply (completes_step _ _ _ _ _ Hs eq_refl).
  apply (reset_at_142 _ u fr); try assumption.
  - eapply reachable_step; eauto.
  - simpl. erewrite registered_step_same; eauto.
  - simpl. eapply insert_lookup_same; eauto.
Qed.

Lemma reset_at_115 w u fr :
  reachable w -> m_command (cv (mem w)) = NOTIFY_ALL ->
  count registered (threads w) <= k ->
  m_check_mut (cv (mem w)) = None ->
  threads w !! u = Some (InWait W115 fr) -> completes is_reset w.
Proof using IH.
  intros Hr Hc Hk Hf Hu.
  assert (Hns : m_command (cv (mem w)) <> SLEEP) by (rewrite Hc; discriminate).
  destruct (command_exclusive _ (Inv_reachable _ Hr) Hns) as [He _].
  destruct (m_enter_mut (cv (mem w))) as [o|] eqn:Hm; [|now elim He].
  assert (Hs : step (Run u) w
               = Some (mkWorld (set_enter_mut (Some o) (mem w))
                         (<[u := InWait W105 (set_timed_out false fr)]> (threads w)),
                       EvContended)).
  { apply (step_run_at w u _ _ _ _ Hu). simpl. rewrite Hm. reflexivity. }
  apply (completes_step _ _ _ _ _ Hs eq_refl).
  apply (reset_at_105 _ u (set_timed_out false fr)); try assumption.
  - eapply reachable_step; eauto.
  - simpl. erewrite registered_step_same; eauto.
  - simpl. eapply insert_lookup_same; eauto.
Qed.

Lemma reset_at_110 w u fr :
  reachable w -> m_command (cv (mem w)) = NOTIFY_ALL ->
  count registered (threads w) <= k ->
  m_check_mut (cv (mem w)) = None ->
  threads w !! u = Some (InWait W110 fr) -> completes is_reset w.
Proof using IH.
  intros Hr Hc Hk Hf Hu.
  destruct (abs_time fr <=? clock (mem w)) eqn:Hd.
  - assert (Hs : step (Run u) w
                 = Some (mkWorld (mem w)
                           (<[u := InWait W115 (set_now (clock (mem w)) fr)]> (threads w)),
                         EvTau)).
    { apply (step_run_at w u _ _ _ _ Hu). simpl. rewrite Hd. reflexivity. }
    apply (completes_step _ _ _ _ _ Hs eq_refl).
    apply (reset_at_115 _ u (set_now (clock (mem w)) fr)); try assumption.
    + eapply reachable_step; eauto.
    + simpl. erewrite registered_step_same; eauto.
    + simpl. eapply insert_lookup_same; eauto.
  - assert (Hs : step (Run u) w
                 = Some (mkWorld (mem w)
                           (<[u := InWait W105 (set_now (clock (mem w)) fr)]> (threads w)),
                         EvTau)).
    { apply (step_run_at w u _ _ _ _ Hu). simpl. rewrite Hd. reflexivity. }
    apply (completes_step _ _ _ _ _ Hs eq_refl).
    apply (reset_at_105 _ u (set_now (clock (mem w)) fr)); try assumption.
    + eapply reachable_step; eauto.
    + simpl. erewrite registered_step_same; eauto.
    + simpl. eapply insert_lookup_same; eauto.
Qed.

(** With the checking section free, a registered waiter leaves next. *)
Lemma reset_check_free w :
  reachable w -> m_command (cv (mem w)) = NOTIFY_ALL ->
  count registered (threads w) <= k ->
  m_check_mut (cv (mem w)) = None -> completes is_reset w.
Proof using IH.
  intros Hr Hc Hk Hf. pose proof (Inv_reachable _ Hr) as HI.
  assert (Hns : m_command (cv (mem w)) <> SLEEP) by (rewrite Hc; discriminate).
  destruct (command_exclusive _ HI Hns) as [He Hno].
  assert (Hnone : forall v thv, threads w !! v = Some thv -> in_check thv = false).
  { intros v thv Hv. destruct (in_check thv) eqn:E; [|reflexivity].
    pose proof (count_lookup in_check _ _ _ Hv E) as Hge.
    rewrite (inv_check _ HI), Hf in Hge. simpl in Hge. lia. }
  assert (Hreg : 1 <= count registered (threads w)).
  { assert (Hnz : m_num_waiters (cv (mem w)) <> 0%Z).
    { intros Hz. pose proof (inv_pending _ HI Hns Hz) as Hp.
      apply count_exists in Hp as (v & thv & Hv & Hx).
      pose proof (Hnone v thv Hv) as Hin.
      destruct thv as [|[] ?|[] frv|]; discriminate. }
    rewrite (inv_waiters _ HI) in Hnz.
    destruct (count registered (threads w)); [now elim Hnz|lia]. }
  apply count_exists in Hreg as (u & thu & Hu & Hreg).
  pose proof (Hno u thu Hu) as Hh. pose proof (Hnone u thu Hu) as Hin.
  destruct thu as [|[] ?|[] fru|]; try discriminate.
  - eapply reset_at_105; eauto.
  - eapply reset_at_110; eauto.
  - eapply reset_at_115; eauto.
  - eapply reset_at_142; eauto.
Qed.

Lemma reset_any w :
  reachable w -> m_command (cv (mem w)) = NOTIFY_ALL ->
  count registered (threads w) <= k -> completes is_reset w.
Proof using IH.
  intros Hr Hc Hk. pose proof (Inv_reachable _ Hr) as HI.
  destruct (m_check_mut (cv (mem w))) as [o|] eqn:Hf; [|now apply reset_check_free].
  assert (Hns : m_command (cv (mem w)) <> SLEEP) by (rewrite Hc; discriminate).
  destruct (command_exclusive _ HI Hns) as [He Hno].
  assert (Hin : 1 <= count in_check (threads w)).
  { rewrite (inv_check _ HI), Hf. simpl. lia. }
  apply count_exists in Hin as (v & thv & Hv & Hin).
  pose proof (Hno v thv Hv) as Hh.
  destruct thv as [|[] ?|[] frv|]; try discriminate; simpl in Hh.
  - (* W144 *) eapply reset_at_144; eauto.
  - (* W148 *)
    assert (Hs : step (Run v) w
                 = Some (mkWorld (set_check_mut None (mem w))
                           (<[v := InWait W105 frv]> (threads w)), EvTau)).
    { apply (step_run_at w v _ _ _ _ Hv). reflexivity. }
    apply (completes_step _ _ _ _ _ Hs eq_refl).
    apply reset_check_free; [eapply reachable_step; eauto|assumption| |reflexivity].
    simpl. erewrite registered_step_same; eauto.
  - (* W162 *) eapply reset_at_162; eauto.
  - (* W166 *) eapply reset_at_166; eauto.
  - (* W168 *)
    assert (Hs : step (Run v) w
                 = Some (mkWorld (set_check_mut None (mem w))
                           (<[v := InWait W175 frv]> (threads w)), EvTau)).
    { apply (step_run_at w v _ _ _ _ Hv). reflexivity. }
    apply (completes_step _ _ _ _ _ Hs eq_refl).
    apply reset_check_free; [eapply reachable_step; eauto|assumption| |reflexivity].
    simpl. erewrite registered_step_same; eauto.
Qed.

End Release.

Theorem notify_all_can_be_completed w :
  reachable w -> m_command (cv (mem w)) = NOTIFY_ALL -> completes is_reset w.
Proof.
  remember (count registered (threads w)) as k eqn:Ek. revert w Ek.
  induction k as [k IH] using lt_wf_ind. intros w -> Hr Hc.
  apply (reset_any (count registered (threads w))); auto.
  intros w' Hr' Hc' Hlt. eapply IH; eauto.
Qed.

(** ** The scenarios of the specification *)

Example one_waiter_notify_one :
  cv (mem (after 2 sc_released_one)) = constructed /\
  threads (after 2 sc_released_one) = [Idle; Idle] /\
  ext (mem (after 2 sc_released_one)) 0 = Some 0 /\
  hd_error (history_after 2 sc_released_one) = Some (Run 0, EvReturn (Some true)).
Proof. vm_compute. repeat split. Qed.

Example one_waiter_notify_all :
  cv (mem (after 2 sc_released_all)) = constructed /\
  threads (after 2 sc_released_all) = [Idle; Idle] /\
  hd_error (history_after 2 sc_released_all) = Some (Run 0, EvReturn (Some true)).
Proof. vm_compute. repeat split. Qed.

(** Three waiters, then [notify_all] by a fourth thread: all three return
    [true], the count is back to zero and the command to SLEEP. *)
Example three_waiters_notify_all :
  let register t := [UserLock t 0; Call t (CWait 0); Run t; Run t; Run t; Run t; Run t] in
  let leave t := [Run t; Run t; Run t; Run t; Run t; Run t; Run t; Run t] in
  let ls := register 0 ++ register 1 ++ register 2
            ++ [Call 3 CNotifyAll; Run 3; Run 3; Run 3; Run 3]
            ++ leave 0 ++ [UserUnlock 0 0] ++ leave 1 ++ [UserUnlock 1 0] ++ leave 2 ++ [Run 2] in
  cv (mem (after 4 ls)) = constructed /\
  threads (after 4 ls) = [Idle; Idle; Idle; Idle] /\
  map snd (filter (fun x => decisive (snd x)) (history_after 4 ls))
  = [EvReturn (Some true); EvObserved NOTIFY_ALL;
     EvReturn (Some true); EvObserved NOTIFY_ALL;
     EvReturn (Some true); EvObserved NOTIFY_ALL;
     EvReturn None; EvCall CNotifyAll;
     EvCall (CWait 0); EvCall (CWait 0); EvCall (CWait 0)].
Proof. vm_compute. repeat split. Qed.

(** A deadline that passes while spinning, with nobody notifying. *)
Example spin_timeout :
  let ls := sc_deadline ++ [Run 0; Run 0; Run 0; Run 0; Run 0] in
  cv (mem (after 1 ls)) = constructed /\
  threads (after 1 ls) = [Idle] /\
  ext (mem (after 1 ls)) 0 = Some 0 /\
  hd_error (history_after 1 ls) = Some (Run 0, EvReturn (Some false)).
Proof. vm_compute. repeat split. Qed.

(** * The claims *)



(** Claim C2.  Over every execution from the initial world, the
    compare-exchanges of line 144 that found NOTIFY_ONE are as many as the
    NOTIFY_ONE commands that were stored, less the one still pending, and
    at any time at most one waiter has a notification taken over; a
    NOTIFY_ONE that is pending can always be taken over, by exactly one
    such compare-exchange: each NOTIFY_ONE goes back to SLEEP exactly
    once.  A waiter at the compare-exchange of line 144 holds
    [m_check_mut], and no other thread is in the checking section.  If
    [m_command] holds NOTIFY_ONE, at least one waiter is registered, this
    waiter's compare-exchange stores SLEEP, the waiter marks
    [m_enter_mut] for release, decrements [m_num_waiters] by one, leaves
    the checking section and unlocks [m_enter_mut].  If it finds SLEEP, it
    changes nothing, unlocks [m_check_mut] and is back at the head of the
    spin loop with nothing marked. *)
Theorem notify_one_single_consumer n h w :
  exec (init n) h w ->
  let s := mem w in
  (occurrences consumed_one h + pending NOTIFY_ONE w
   = occurrences (notified_with NOTIFY_ONE) h /\
   count consumer (threads w) <= 1) /\
  (m_command (cv s) = NOTIFY_ONE -> completes consumed_one w) /\
  forall t fr, threads w !! t = Some (InWait W144 fr) ->
  (m_check_mut (cv s) = Some t /\
   forall u thu, u <> t -> threads w !! u = Some thu -> in_check thu = false) /\
  (if Z.eqb (m_command (cv s)) NOTIFY_ONE then
     let fr' := set_unlock_enter_mut true fr in
     let s1 := set_command SLEEP s in
     let s2 := set_num_waiters (fst (interlocked_decrement (m_num_waiters (cv s)))) s1 in
     let s3 := set_check_mut None s2 in
     let s4 := set_enter_mut None s3 in
     m_num_waiters (cv s) <> 0%Z /\ 1 <= count registered (threads w) /\
     m_enter_mut (cv s) <> None /\
     step (Run t) w
     = Some (mkWorld s1 (<[t := InWait W156 fr']> (threads w)), EvObserved NOTIFY_ONE) /\
     step (Run t) (mkWorld s1 (<[t := InWait W156 fr']> (threads w)))
     = Some (mkWorld s2 (<[t := InWait W168 fr']> (threads w)), EvTau) /\
     step (Run t) (mkWorld s2 (<[t := InWait W168 fr']> (threads w)))
     = Some (mkWorld s3 (<[t := InWait W175 fr']> (threads w)), EvTau) /\
     step (Run t) (mkWorld s3 (<[t := InWait W175 fr']> (threads w)))
     = Some (mkWorld s4 (<[t := InWait W180 fr']> (threads w)), EvTau)
   else if Z.eqb (m_command (cv s)) SLEEP then
     unlock_enter_mut fr = false /\
     step (Run t) w = Some (mkWorld s (<[t := InWait W148 fr]> (threads w)), EvObserved SLEEP) /\
     step (Run t) (mkWorld s (<[t := InWait W148 fr]> (threads w)))
     = Some (mkWorld (set_check_mut None s) (<[t := InWait W105 fr]> (threads w)), EvTau)
   else
     m_command (cv s) = NOTIFY_ALL /\
     step (Run t) w
     = Some (mkWorld s (<[t := InWait W162 fr]> (threads w)), EvObserved NOTIFY_ALL)).
Proof.
  intros He s. subst s.
  pose proof (Inv_exec _ _ _ (Inv_init n) He) as HI.
  split; [split|].
  { destruct (accounting _ _ _ (Inv_init n) He) as [E _]. rewrite E.
    unfold pending. simpl. lia. }
  { pose proof (count_le consumer holds_enter (threads w) consumer_holds).
    pose proof (inv_enter _ HI). destruct (m_enter_mut (cv (mem w))); simpl in *; lia. }
  split.
  { intros Hc. apply notify_one_can_be_consumed; [exists n, h; exact He|exact Hc]. }
  intros t fr Ht.
  pose proof (inv_threads _ HI _ _ Ht) as Hth. simpl in Hth.
  destruct Hth as (Hx & Hto & Hun & Hck).
  split; [split; [assumption|]|].
  { apply (check_exclusive _ _ _ HI Ht). reflexivity. }
  pose proof (inv_cmd _ HI) as Hcmd.
  destruct (Z.eqb_spec (m_command (cv (mem w))) NOTIFY_ONE) as [E1|E1].
  - assert (Hns : m_command (cv (mem w)) <> SLEEP) by (rewrite E1; discriminate).
    assert (Hnz : m_num_waiters (cv (mem w)) <> 0%Z).
    { intros Hz. pose proof (inv_pending _ HI Hns Hz) as Hp.
      apply count_exists in Hp as (u & thu & Hu & Hr).
      destruct thu as [|[] ?|[] fru|]; try discriminate.
      pose proof (inv_threads _ HI _ _ Hu) as Htu. simpl in Htu.
      destruct Htu as (_ & _ & _ & _ & Hc & _). rewrite E1 in Hc. discriminate. }
    split; [assumption|]. split.
    { rewrite (inv_waiters _ HI) in Hnz.
      destruct (count registered (threads w)); [now elim Hnz|lia]. }
    split; [apply (command_exclusive _ HI Hns)|].
    split; [apply (step_run_at w t _ _ _ _ Ht); simpl;
            unfold interlocked_compare_exchange; rewrite E1; reflexivity|].
    repeat split; apply (step_next _ _ _ _ _ _ _ _ Ht); reflexivity.
  - destruct (Z.eqb_spec (m_command (cv (mem w))) SLEEP) as [E2|E2].
    + split; [assumption|]. split; [|apply (step_next _ _ _ _ _ _ _ _ Ht); reflexivity].
      apply (step_run_at w t _ _ _ _ Ht). simpl.
      unfold interlocked_compare_exchange. rewrite E2. simpl.
      replace (set_command SLEEP (mem w)) with (mem w); [reflexivity|].
      rewrite <- E2. symmetry. apply set_command_same.
    + assert (E3 : m_command (cv (mem w)) = NOTIFY_ALL) by tauto.
      split; [assumption|].
      apply (step_run_at w t _ _ _ _ Ht). simpl.
      unfold interlocked_compare_exchange. rewrite E3. simpl.
      replace (set_command NOTIFY_ALL (mem w)) with (mem w); [reflexivity|].
      rewrite <- E3. symmetry. apply set_command_same.
Qed.

Lemma notify_one_single_consumer_witness :
  occurrences consumed_one (history_after 2 (sc_notified CNotifyOne))
  + pending NOTIFY_ONE (after 2 (sc_notified CNotifyOne))
  = occurrences (notified_with NOTIFY_ONE) (history_after 2 (sc_notified CNotifyOne)) /\
  completes consumed_one (after 2 (sc_notified CNotifyOne)) /\
  m_num_waiters (cv (mem (after 2 (sc_notified CNotifyOne)))) <> 0%Z.
Proof.
  destruct (notify_one_single_consumer 2 (history_after 2 (sc_notified CNotifyOne))
              (after 2 (sc_notified CNotifyOne))
              (after_exec 2 (sc_notified CNotifyOne)))
    as ((H1 & _) & H2 & H3).
  destruct (H3 0 frame_plain eq_refl) as (_ & H4 & _).
  exact (conj H1 (conj (H2 eq_refl) H4)).
Defined.

(** Claim C3.  A waiter that found NOTIFY_ALL at line 144 stands at the
    decrement of line 162 with [m_check_mut] held, the command still
    NOTIFY_ALL and [m_enter_mut] locked for the notifier.  It decrements
    [m_num_waiters] once.  If the result is zero it is the last one out:
    it marks [m_enter_mut] for release, its compare-exchange of line 166
    stores SLEEP, it leaves the checking section and unlocks
    [m_enter_mut].  Otherwise it marks nothing, leaves the checking section
    and goes to relock the external mutex, leaving the command NOTIFY_ALL
    and [m_enter_mut] as they were.  With fewer than 2^31 threads the
    result is zero exactly when this waiter is the only one registered.
    Over every execution from the initial world the resets of line 166 are
    as many as the NOTIFY_ALL commands stored, less the one pending, and
    the pending one can always be brought to its end, by the registered
    waiters leaving one after the other and exactly one reset: each
    NOTIFY_ALL goes back to SLEEP exactly once. *)
Theorem notify_all_last_waiter_resets n h w t fr :
  exec (init n) h w -> threads w !! t = Some (InWait W162 fr) ->
  let s := mem w in
  let d := interlocked_decrement (m_num_waiters (cv s)) in
  let s1 := set_num_waiters (fst d) s in
  (m_command (cv s) = NOTIFY_ALL /\ m_check_mut (cv s) = Some t /\
   m_enter_mut (cv s) <> None /\ unlock_enter_mut fr = false /\
   (forall u thu, threads w !! u = Some thu -> holds_enter thu = false) /\
   (forall u thu, u <> t -> threads w !! u = Some thu -> in_check thu = false)) /\
  (occurrences is_reset h + 1 = occurrences (notified_with NOTIFY_ALL) h /\
   completes is_reset w) /\
  (if Z.eqb (snd d) 0 then
     let fr' := set_unlock_enter_mut true fr in
     let s2 := set_command SLEEP s1 in
     let s3 := set_check_mut None s2 in
     let s4 := set_enter_mut None s3 in
     step (Run t) w = Some (mkWorld s1 (<[t := InWait W166 fr']> (threads w)), EvTau) /\
     step (Run t) (mkWorld s1 (<[t := InWait W166 fr']> (threads w)))
     = Some (mkWorld s2 (<[t := InWait W168 fr']> (threads w)), EvReset NOTIFY_ALL SLEEP) /\
     step (Run t) (mkWorld s2 (<[t := InWait W168 fr']> (threads w)))
     = Some (mkWorld s3 (<[t := InWait W175 fr']> (threads w)), EvTau) /\
     step (Run t) (mkWorld s3 (<[t := InWait W175 fr']> (threads w)))
     = Some (mkWorld s4 (<[t := InWait W180 fr']> (threads w)), EvTau)
   else
     let s2 := set_check_mut None s1 in
     step (Run t) w = Some (mkWorld s1 (<[t := InWait W168 fr]> (threads w)), EvTau) /\
     step (Run t) (mkWorld s1 (<[t := InWait W168 fr]> (threads w)))
     = Some (mkWorld s2 (<[t := InWait W175 fr]> (threads w)), EvTau) /\
     step (Run t) (mkWorld s2 (<[t := InWait W175 fr]> (threads w)))
     = Some (mkWorld s2 (<[t := InWait W180 fr]> (threads w)), EvTau) /\
     m_command (cv s2) = NOTIFY_ALL /\ m_enter_mut (cv s2) = m_enter_mut (cv s)) /\
  ((Z.of_nat (length (threads w)) < 2 ^ 31)%Z ->
   (snd d = 0%Z <-> count registered (threads w) = 1)).
Proof.
  intros He Ht s d s1. subst s d s1.
  pose proof (Inv_exec _ _ _ (Inv_init n) He) as HI.
  pose proof (inv_threads _ HI _ _ Ht) as Hth. simpl in Hth.
  destruct Hth as (Hx & Hto & Hun & Hck & Hcmd).
  assert (Hns : m_command (cv (mem w)) <> SLEEP) by (rewrite Hcmd; discriminate).
  destruct (command_exclusive _ HI Hns) as [Hen Hno].
  split; [repeat split; auto|].
  { apply (check_exclusive _ _ _ HI Ht). reflexivity. }
  split; [split|].
  { destruct (accounting _ _ _ (Inv_init n) He) as [_ E].
    unfold pending in E. simpl in E. rewrite Hcmd in E. simpl in E. lia. }
  { apply notify_all_can_be_completed; [exists n, h; exact He|exact Hcmd]. }
  split.
  - unfold interlocked_decrement. simpl fst. simpl snd.
    destruct (Z.eqb_spec (wrap_long (m_num_waiters (cv (mem w)) - 1)) 0) as [E|E].
    + split; [apply (step_run_at w t _ _ _ _ Ht); simpl; rewrite E; reflexivity|].
      split; [apply (step_next _ _ _ _ _ _ _ _ Ht); simpl;
              unfold interlocked_compare_exchange; simpl; rewrite Hcmd; reflexivity|].
      split; apply (step_next _ _ _ _ _ _ _ _ Ht); reflexivity.
    + apply Z.eqb_neq in E.
      assert (F : set_unlock_enter_mut false fr = fr).
      { unfold set_unlock_enter_mut. rewrite <- Hun. apply frame_eta. }
      split; [apply (step_run_at w t _ _ _ _ Ht); simpl; rewrite E, F; reflexivity|].
      split; [apply (step_next _ _ _ _ _ _ _ _ Ht); reflexivity|].
      split; [apply (step_next _ _ _ _ _ _ _ _ Ht); simpl; rewrite Hun; reflexivity|].
      split; [assumption|reflexivity].
  - intros Hlen. unfold interlocked_decrement. simpl snd.
    pose proof (count_le_length registered (threads w)) as Hle.
    pose proof (count_lookup registered _ _ _ Ht eq_refl) as Hge.
    rewrite (inv_waiters _ HI), wrap_long_sub, wrap_long_small by lia. lia.
Qed.

Lemma notify_all_last_waiter_resets_witness :
  occurrences is_reset (history_after 2 (sc_notified CNotifyAll ++ [Run 0])) + 1
  = occurrences (notified_with NOTIFY_ALL)
      (history_after 2 (sc_notified CNotifyAll ++ [Run 0])) /\
  m_command (cv (mem (after 2 (sc_notified CNotifyAll ++ [Run 0])))) = NOTIFY_ALL /\
  snd (interlocked_decrement
         (m_num_waiters (cv (mem (after 2 (sc_notified CNotifyAll ++ [Run 0])))))) = 0%Z.
Proof.
  destruct (notify_all_last_waiter_resets 2
              (history_after 2 (sc_notified CNotifyAll ++ [Run 0]))
              (after 2 (sc_notified CNotifyAll ++ [Run 0])) 0 frame_plain
              (after_exec 2 (sc_notified CNotifyAll ++ [Run 0])) eq_refl)
    as ((H1 & _) & (H2 & _) & _ & H3).
  exact (conj H2 (conj H1 (proj2 (H3 eq_refl) eq_refl))).
Defined.

(** Claim C4.  A notifier that has read a waiter count (line 49) goes on
    without touching memory, to the unlock of line 50 when the count is
    zero and to the compare-exchange of line 55 otherwise.  At line 55 the
    count is not zero and the command is SLEEP, so that the
    compare-exchange stores the target command; the call returns with
    [m_enter_mut] still locked by the notifier, and a notification is in
    flight.  While a notification is in flight (the command is not SLEEP,
    or the waiter that took it over has not yet unlocked), [m_enter_mut] is
    locked, no thread is inside [notify] past its lock, and a step either
    leaves [m_enter_mut] as it is, the notification still in flight, or is
    the unlock of line 176 by the waiter that took the notification over,
    which ends it. *)
Theorem notify_leaves_enter_locked w l w' ev :
  reachable w -> step l w = Some (w', ev) ->
  match l with
  | Run t =>
      match threads w !! t with
      | Some (InNotify N49 c) =>
          mem w' = mem w /\
          threads w' =
            <[t := InNotify (if Z.eqb (m_num_waiters (cv (mem w))) 0 then N50 else N55) c]>
              (threads w)
      | Some (InNotify N55 c) =>
          m_num_waiters (cv (mem w)) <> 0%Z /\ m_command (cv (mem w)) = SLEEP /\
          c <> SLEEP /\ ev = EvNotified SLEEP c /\
          mem w' = set_command c (mem w) /\
          threads w' = <[t := Returning None]> (threads w) /\
          m_enter_mut (cv (mem w')) = Some t /\ in_flight w'
      | _ => True
      end
  | _ => True
  end /\
  (in_flight w ->
   m_enter_mut (cv (mem w)) <> None /\
   (forall u thu, threads w !! u = Some thu -> inside_notify thu = false) /\
   ((m_enter_mut (cv (mem w')) = m_enter_mut (cv (mem w)) /\ in_flight w') \/
    (exists t fr, l = Run t /\ threads w !! t = Some (InWait W175 fr) /\
       consumer (InWait W175 fr) = true /\ m_enter_mut (cv (mem w')) = None /\
       ~ in_flight w'))).
Proof.
  intros Hr H.
  pose proof (Inv_reachable w Hr) as HI.
  assert (Hfl : in_flight w ->
     m_enter_mut (cv (mem w)) <> None /\
     (forall u thu, threads w !! u = Some thu -> inside_notify thu = false) /\
     (1 <= count consumer (threads w) -> m_command (cv (mem w)) = SLEEP)).
  { intros [Hc | Hc].
    - destruct (command_exclusive w HI Hc) as [H1 H2]. split; [assumption|]. split.
      + intros u thu Hu. specialize (H2 u thu Hu).
        destruct thu as [|[] ?|[] ?|]; simpl in *; congruence.
      + intros Hk. apply count_exists in Hk as (u & thu & Hu & Hk).
        apply consumer_holds in Hk. rewrite (H2 u thu Hu) in Hk. discriminate.
    - apply count_exists in Hc as (u & thu & Hu & Hk).
      pose proof (consumer_holds _ Hk) as Hh.
      destruct (enter_exclusive w u thu HI Hu Hh) as (H1 & H2 & H3).
      split; [assumption|]. split; [|auto].
      intros v thv Hv. destruct (decide (v = u)) as [-> | Hne].
      + assert (thv = thu) by congruence. subst.
        destruct thu as [|[] ?|[] ?|]; simpl in *; congruence.
      + specialize (H3 v thv Hne Hv).
        destruct thv as [|[] ?|[] ?|]; simpl in *; congruence. }
  destruct l as [t|t c|t m|t m|].
  2-5: split; [exact I|]; intros Hf; destruct (Hfl Hf) as (F1 & F2 & F3);
       split; [assumption|]; split; [assumption|]; left.
  2: { simpl in H. destruct (threads w !! t) as [[| | |]|] eqn:Ht; try discriminate.
       destruct (call_allowed t (mem w) c); [|discriminate]. injection H as <- <-.
       split; [reflexivity|]. unfold in_flight in *; simpl.
       pose proof (count_insert consumer _ _ _ (enter_call c) Ht).
       destruct c; simpl in *; destruct Hf; auto; right; lia. }
  2-4: other_label H; auto.
  unfold in_flight in *.
  pose proof (inv_enter _ HI) as Hen.
  pose proof (count_le consumer holds_enter (threads w) consumer_holds) as Hle.
  run_invert HI H.
  count_step consumer. count_step holds_enter.
  assert (Hle' : count consumer (<[t := th']> (threads w))
                 <= count holds_enter (<[t := th']> (threads w)))
    by apply count_le, consumer_holds.
  run_cases; simpl in *; rewrite ?Ht; simpl.
  all: split; [try exact I|].
  all: try solve [repeat split; auto; try congruence;
                  first [ destruct s as [[? ? ? ?] ? ?]; reflexivity
                        | unfold SLEEP, NOTIFY_ONE, NOTIFY_ALL in *; destruct_or?; congruence
                        | left; unfold SLEEP, NOTIFY_ONE, NOTIFY_ALL in *;
                          destruct_or?; congruence ]].
  all: intros Hf; destruct (Hfl Hf) as (F1 & F2 & F3); clear Hfl;
       try congruence; (split; [assumption|]); (split; [assumption|]).
  all: unfold cmd_tok, mtok, SLEEP, NOTIFY_ONE, NOTIFY_ALL in *.
  all: repeat match goal with
       | H : context [Z.eqb ?a ?b] |- _ => destruct (Z.eqb_spec a b)
       | H : context [match m_enter_mut ?c with _ => _ end] |- _ =>
           destruct (m_enter_mut c) eqn:?
       end; simpl in *.
  all: try solve [left; split; [congruence | first [left; congruence | right; lia]]].
  all: try solve [exfalso; destruct Hf; [congruence | lia]].
  all: right; eexists _, _; (split; [reflexivity|]); (split; [eassumption|]);
       repeat match goal with
       | E : _ ?f = _ |- context [?f] => rewrite E
       end; simpl; repeat split; auto; intros [?|?]; [congruence|lia].
Qed.

Lemma notify_leaves_enter_locked_witness :
  m_enter_mut (cv (mem (after 2 (sc_notifying CNotifyOne ++ [Run 1])))) = Some 1 /\
  in_flight (after 2 (sc_notifying CNotifyOne ++ [Run 1])) /\
  m_enter_mut (cv (mem (after 2 (sc_notifying CNotifyOne ++ [Run 1; Run 1])))) <> None.
Proof.
  destruct (notify_leaves_enter_locked (after 2 (sc_notifying CNotifyOne)) (Run 1)
              (after 2 (sc_notifying CNotifyOne ++ [Run 1])) (EvNotified SLEEP NOTIFY_ONE)
              (after_reachable 2 (sc_notifying CNotifyOne)) eq_refl)
    as ((_ & _ & _ & _ & _ & _ & H1 & H2) & _).
  destruct (notify_leaves_enter_locked (after 2 (sc_notifying CNotifyOne ++ [Run 1])) (Run 1)
              (after 2 (sc_notifying CNotifyOne ++ [Run 1; Run 1])) (EvReturn None)
              (after_reachable 2 (sc_notifying CNotifyOne ++ [Run 1])) eq_refl)
    as (_ & H3).
  destruct (H3 H2) as (H4 & _ & _).
  exact (conj H1 (conj H2 H4)).
Defined.



(** Claim C6.  A timed wait called by the owner of the external mutex with
    a deadline that has passed returns [false] at once: the call reads the
    clock, returns, and the world after the call is the world before it.
    The caller is at no time registered as a waiter, [m_num_waiters] keeps
    its value, and the external mutex, which the call never unlocks, is
    the caller's when the call returns.  Whether a notification is pending
    plays no part ([expired_step] is the step of line 79 in any world). *)
Theorem expired_at_entry w t abs m :
  threads w !! t = Some Idle ->
  ext (mem w) m = Some t ->
  abs <= clock (mem w) ->
  let c := CTimedWait abs m in
  let w1 := mkWorld (mem w) (<[t := enter_call c]> (threads w)) in
  let w2 := mkWorld (mem w) (<[t := Returning (Some false)]> (threads w)) in
  step (Call t c) w = Some (w1, EvCall c) /\
  step (Run t) w1 = Some (w2, EvExpired) /\
  step (Run t) w2 = Some (w, EvReturn (Some false)) /\
  count registered (threads w1) = count registered (threads w) /\
  count registered (threads w2) = count registered (threads w) /\
  m_num_waiters (cv (mem w2)) = m_num_waiters (cv (mem w)) /\
  ext (mem w2) m = Some t /\
  run [Call t c; Run t; Run t] w [] =
  Some (w, [(Run t, EvReturn (Some false)); (Run t, EvExpired); (Call t c, EvCall c)]).
Proof.
  intros Ht Hm Ha c w1 w2.
  assert (S1 : step (Call t c) w = Some (w1, EvCall c)).
  { simpl. rewrite Ht, Hm, Nat.eqb_refl. reflexivity. }
  assert (S2 : step (Run t) w1 = Some (w2, EvExpired)).
  { subst w1 w2. erewrite step_run_at;
      [|simpl; eapply insert_lookup_same; eassumption|simpl].
    - simpl. rewrite list_insert_insert_eq. reflexivity.
    - apply Nat.leb_le in Ha. rewrite Ha. reflexivity. }
  assert (S3 : step (Run t) w2 = Some (w, EvReturn (Some false))).
  { subst w2. erewrite step_run_at;
      [|simpl; eapply insert_lookup_same; eassumption|simpl; reflexivity].
    simpl. rewrite list_insert_insert_eq, (list_insert_id _ _ _ Ht).
    destruct w; reflexivity. }
  repeat split; trivial.
  - subst w1. simpl. pose proof (count_insert registered _ _ _ (enter_call c) Ht) as E.
    simpl in E. lia.
  - subst w2. simpl.
    pose proof (count_insert registered _ _ _ (Returning (Some false)) Ht) as E.
    simpl in E. lia.
  - unfold run. rewrite S1, S2, S3. reflexivity.
Qed.

Lemma expired_at_entry_witness :
  run [Call 0 (CTimedWait 0 0); Run 0; Run 0] (after 1 [UserLock 0 0]) [] =
  Some (after 1 [UserLock 0 0],
        [(Run 0, EvReturn (Some false)); (Run 0, EvExpired);
         (Call 0 (CTimedWait 0 0), EvCall (CTimedWait 0 0))]).
Proof.
  destruct (expired_at_entry (after 1 [UserLock 0 0]) 0 0 0 eq_refl eq_refl (le_n 0))
    as (_ & _ & _ & _ & _ & _ & _ & H).
  exact H.
Defined.



(** Claim C8.  In every reachable world the command word is SLEEP,
    NOTIFY_ONE or NOTIFY_ALL, and a step that changes it is one of three
    compare-exchanges: line 55, by a notifier that holds [m_enter_mut] and
    has read a waiter count that is not zero, from SLEEP to its target
    command; line 144, by a waiter inside the checking section, from
    NOTIFY_ONE to SLEEP, which makes that waiter the one that has taken the
    notification over; line 166, by the waiter inside the checking section
    whose decrement brought the count to zero, from NOTIFY_ALL to SLEEP.
    No other step changes the command. *)
Theorem command_transitions w l w' ev :
  reachable w -> step l w = Some (w', ev) ->
  let c := m_command (cv (mem w)) in
  let c' := m_command (cv (mem w')) in
  (c = SLEEP \/ c = NOTIFY_ONE \/ c = NOTIFY_ALL) /\
  (c' = SLEEP \/ c' = NOTIFY_ONE \/ c' = NOTIFY_ALL) /\
  (c' = c \/
   exists t, l = Run t /\
     ((exists cmd, threads w !! t = Some (InNotify N55 cmd) /\
         c = SLEEP /\ c' = cmd /\ (cmd = NOTIFY_ONE \/ cmd = NOTIFY_ALL) /\
         (c', c) = interlocked_compare_exchange c cmd SLEEP /\
         m_enter_mut (cv (mem w)) = Some t /\ m_num_waiters (cv (mem w)) <> 0%Z) \/
      (exists fr, threads w !! t = Some (InWait W144 fr) /\
         c = NOTIFY_ONE /\ c' = SLEEP /\
         (c', c) = interlocked_compare_exchange c SLEEP NOTIFY_ONE /\
         m_check_mut (cv (mem w)) = Some t /\
         threads w' !! t = Some (InWait W156 (set_unlock_enter_mut true fr))) \/
      (exists fr, threads w !! t = Some (InWait W166 fr) /\
         c = NOTIFY_ALL /\ c' = SLEEP /\
         (c', c) = interlocked_compare_exchange c SLEEP NOTIFY_ALL /\
         m_check_mut (cv (mem w)) = Some t /\ m_num_waiters (cv (mem w)) = 0%Z))).
Proof.
  intros Hr H c c'. subst c c'.
  pose proof (Inv_reachable w Hr) as HI.
  pose proof (Inv_step _ _ _ _ HI H) as HI'.
  split; [apply (inv_cmd _ HI)|]. split; [apply (inv_cmd _ HI')|]. clear HI'.
  destruct l as [t| | | |]; try (left; f_equal; eapply step_other_mem; eauto; discriminate).
  run_setup HI H; simpl; try (left; congruence).
  all: right; exists t; (split; [reflexivity|]).
  all: let fin := (eexists; repeat split; eauto;
                   first [ repeat match goal with
                                  | E : timed_out _ = _ |- _ => rewrite E
                                  end; eapply insert_lookup_same; eassumption
                         | unfold interlocked_compare_exchange;
                           repeat match goal with
                           | E : m_command _ = _ |- _ => rewrite E
                           end; simpl; congruence ]) in
       first [ left; solve [fin] | right; left; solve [fin] | right; right; solve [fin] ].
Qed.

Lemma command_transitions_witness :
  m_command (cv (mem (after 2 (sc_notifying CNotifyOne)))) = SLEEP /\
  m_command (cv (mem (after 2 (sc_notifying CNotifyOne ++ [Run 1])))) = NOTIFY_ONE.
Proof.
  destruct (command_transitions (after 2 (sc_notifying CNotifyOne)) (Run 1)
              (after 2 (sc_notifying CNotifyOne ++ [Run 1])) (EvNotified SLEEP NOTIFY_ONE)
              (after_reachable 2 (sc_notifying CNotifyOne)) eq_refl)
    as (_ & _ & [H | (t & _ & [(cmd & _ & H1 & _) | [(fr & _ & H1 & _) | (fr & _ & H1 & _)]])]).
  - discriminate H.
  - exact (conj H1 eq_refl).
  - discriminate H1.
  - discriminate H1.
Defined.



(** Claim C10.  No step of [notify] changes [m_num_waiters]: the read of
    line 49 is an atomic add of zero that leaves the whole memory as it
    is, and the other steps of [notify] write only [m_enter_mut] and
    [m_command].  The count is, modulo 2^32, the number of threads between
    their increment and their decrement; the only steps that change it are
    the increment of line 91, which registers the stepping waiter, and the
    decrements of lines 134, 156 and 162, one on each way out, which take
    the stepping waiter off the count. *)
Theorem notify_never_writes_num_waiters w l w' ev :
  reachable w -> step l w = Some (w', ev) ->
  let n := m_num_waiters (cv (mem w)) in
  let n' := m_num_waiters (cv (mem w')) in
  let k := count registered (threads w) in
  let k' := count registered (threads w') in
  n = wrap_long (Z.of_nat k) /\
  match l with
  | Run t =>
      match threads w !! t with
      | Some (InNotify pc c) =>
          n' = n /\ k' = k /\
          m_check_mut (cv (mem w')) = m_check_mut (cv (mem w)) /\
          ext (mem w') = ext (mem w) /\
          (pc = N49 -> mem w' = mem w /\ (n', n) = exchange_and_add n 0)
      | Some (InWait W91 _) => n' = fst (interlocked_increment n) /\ k' = S k
      | Some (InWait (W134 | W156 | W162) _) =>
          n' = fst (interlocked_decrement n) /\ S k' = k
      | _ => n' = n /\ k' = k
      end
  | _ => n' = n /\ k' = k
  end.
Proof.
  intros Hr H n n' k k'. subst n n' k k'.
  pose proof (Inv_reachable w Hr) as HI.
  split; [apply (inv_waiters _ HI)|].
  destruct l as [t|t c|t m|t m|].
  2: { simpl in H. destruct (threads w !! t) as [[| | |]|] eqn:Ht; try discriminate.
       destruct (call_allowed t (mem w) c); [|discriminate]. injection H as <- <-. simpl.
       split; [reflexivity|].
       pose proof (count_insert registered _ _ _ (enter_call c) Ht) as CR.
       destruct c; simpl in *; lia. }
  2-4: other_label H; auto.
  run_setup HI H; simpl in *; rewrite ?Ht; simpl.
  all: repeat match goal with
       | |- context [count ?P (<[?t := ?x]> ?l)] =>
           lazymatch goal with
           | _ : count P (<[t := x]> l) + _ = _ |- _ => fail
           | Ht : l !! t = Some _ |- _ => pose proof (count_insert P l t _ x Ht)
           end
       end; simpl in *.
  all: try solve [repeat split; auto; try lia; try congruence].
  all: repeat split; auto; try lia; try congruence; try discriminate.
  all: first [ destruct s as [[? ? ? ?] ? ?]; reflexivity
             | unfold exchange_and_add; rewrite Z.add_0_r; f_equal;
               rewrite Hnw; symmetry; apply wrap_long_idem ].
Qed.

Lemma notify_never_writes_num_waiters_witness :
  m_num_waiters (cv (mem (after 2 (sc_notifying CNotifyOne))))
  = m_num_waiters (cv (mem (after 2 (waiting (CWait 0) ++ [Call 1 CNotifyOne; Run 1])))).
Proof.
  destruct (notify_never_writes_num_waiters
              (after 2 (waiting (CWait 0) ++ [Call 1 CNotifyOne; Run 1])) (Run 1)
              (after 2 (sc_notifying CNotifyOne)) EvTau
              (after_reachable 2 (waiting (CWait 0) ++ [Call 1 CNotifyOne; Run 1])) eq_refl)
    as (_ & H & _).
  exact H.
Defined.

(** * Further properties of the code *)

(** ** The condition at rest and its counters *)

Lemma engaged_holds th : holds_enter th = true -> engaged th = true.
Proof. destruct th as [|[] ?|[] ?|]; simpl; auto. Qed.

Lemma engaged_check th : in_check th = true -> engaged th = true.
Proof. destruct th as [|[] ?|[] ?|]; simpl; auto. Qed.

Lemma engaged_registered th : registered th = true -> engaged th = true.
Proof. destruct th as [|[] ?|[] ?|]; simpl; auto. Qed.

Lemma engaged_reset th : at_reset th = true -> engaged th = true.
Proof. destruct th as [|[] ?|[] ?|]; simpl; auto. Qed.

(** When no thread is between its first lock and its last unlock, the
    condition is as the constructor left it: the command is SLEEP, the
    count is zero and both mutexes are free, whatever calls were made
    before. *)
Theorem quiescent_is_constructed w :
  reachable w -> count engaged (threads w) = 0 -> cv (mem w) = constructed.
Proof.
  intros Hr Hq. pose proof (Inv_reachable w Hr) as HI.
  pose proof (count_le holds_enter engaged (threads w) engaged_holds) as H1.
  pose proof (count_le in_check engaged (threads w) engaged_check) as H2.
  pose proof (count_le registered engaged (threads w) engaged_registered) as H3.
  pose proof (count_le at_reset engaged (threads w) engaged_reset) as H4.
  pose proof (inv_enter _ HI) as He. pose proof (inv_check _ HI) as Hc.
  pose proof (inv_waiters _ HI) as Hn. pose proof (inv_pending _ HI) as Hp.
  replace (count registered (threads w)) with 0 in Hn by lia.
  change (wrap_long (Z.of_nat 0)) with 0%Z in Hn.
  assert (Hs : m_command (cv (mem w)) = SLEEP).
  { destruct (Z.eq_dec (m_command (cv (mem w))) SLEEP) as [E|E]; [assumption|].
    specialize (Hp E Hn). lia. }
  rewrite Hs in He. unfold cmd_tok in He. simpl in He.
  destruct (cv (mem w)) as [c k e m]. simpl in *. subst.
  destruct e, m; simpl in *; try lia. reflexivity.
Qed.

Lemma quiescent_is_constructed_witness :
  cv (mem (after 2 sc_released_all)) = constructed.
Proof.
  exact (quiescent_is_constructed (after 2 sc_released_all)
           (after_reachable 2 sc_released_all) eq_refl).
Defined.

(** [m_check_mut] is locked exactly while its locker is inside the scope
    of line 142, and at most one thread is. *)
Theorem check_mutex_owner w :
  reachable w ->
  (forall o, m_check_mut (cv (mem w)) = Some o <->
             exists th, threads w !! o = Some th /\ in_check th = true) /\
  count in_check (threads w) <= 1.
Proof.
  intros Hr. pose proof (Inv_reachable w Hr) as HI.
  pose proof (inv_check _ HI) as Hc.
  assert (Hown : forall o th, threads w !! o = Some th -> in_check th = true ->
                   m_check_mut (cv (mem w)) = Some o).
  { intros o th Ho Hin. apply (other_facts _ _ _ (inv_threads _ HI _ _ Ho)). exact Hin. }
  split.
  - intros o. split.
    + intros E. rewrite E in Hc. simpl in Hc.
      assert (Hex : 1 <= count in_check (threads w)) by lia.
      apply count_exists in Hex as (u & th & Hu & Hin).
      pose proof (Hown u th Hu Hin) as E'. rewrite E in E'. injection E' as ->. eauto.
    + intros (th & Ho & Hin). eauto.
  - rewrite Hc. destruct (m_check_mut (cv (mem w))); simpl; lia.
Qed.

Lemma check_mutex_owner_witness :
  m_check_mut (cv (mem (after 2 (sc_notified CNotifyOne)))) = Some 0 /\
  count in_check (threads (after 2 (sc_notified CNotifyOne))) <= 1.
Proof.
  destruct (check_mutex_owner (after 2 (sc_notified CNotifyOne))
              (after_reachable 2 (sc_notified CNotifyOne))) as (H1 & H2).
  split; [|exact H2].
  apply (proj2 (H1 0)). exists (InWait W144 frame_plain). split; reflexivity.
Defined.

(** With fewer than 2^31 threads [m_num_waiters] is the number of
    registered waiters, not negative, and the test of line 49 sends
    [notify] to its early return exactly when no waiter is registered. *)
Theorem waiter_count_exact w :
  reachable w -> (Z.of_nat (length (threads w)) < 2 ^ 31)%Z ->
  m_num_waiters (cv (mem w)) = Z.of_nat (count registered (threads w)) /\
  forall t c, threads w !! t = Some (InNotify N49 c) ->
    step (Run t) w
    = Some (mkWorld (mem w)
              (<[t := InNotify (if Nat.eqb (count registered (threads w)) 0 then N50 else N55) c]>
                 (threads w)), EvTau).
Proof.
  intros Hr Hlen. pose proof (Inv_reachable w Hr) as HI.
  pose proof (count_le_length registered (threads w)) as Hle.
  assert (Hn : m_num_waiters (cv (mem w)) = Z.of_nat (count registered (threads w))).
  { rewrite (inv_waiters _ HI). apply wrap_long_small. lia. }
  split; [exact Hn|]. intros t c Ht.
  apply (step_run_at w t _ _ _ _ Ht). simpl. unfold exchange_and_add.
  rewrite Z.add_0_r.
  assert (Hw : wrap_long (m_num_waiters (cv (mem w))) = m_num_waiters (cv (mem w))).
  { rewrite (inv_waiters _ HI). apply wrap_long_idem. }
  rewrite Hw.
  replace (set_num_waiters (m_num_waiters (cv (mem w))) (mem w)) with (mem w)
    by (destruct (mem w) as [[] ? ?]; reflexivity).
  rewrite Hn.
  destruct (Nat.eqb_spec (count registered (threads w)) 0) as [E|E].
  - rewrite E. reflexivity.
  - destruct (Z.eqb_spec (Z.of_nat (count registered (threads w))) 0); [lia|reflexivity].
Qed.

Lemma waiter_count_exact_witness :
  m_num_waiters (cv (mem (after 2 (waiting (CWait 0) ++ [Call 1 CNotifyOne; Run 1])))) = 1%Z /\
  step (Run 1) (after 2 (waiting (CWait 0) ++ [Call 1 CNotifyOne; Run 1]))
  = Some (mkWorld (mem (after 2 (waiting (CWait 0) ++ [Call 1 CNotifyOne; Run 1])))
            (<[1 := InNotify N55 NOTIFY_ONE]>
               (threads (after 2 (waiting (CWait 0) ++ [Call 1 CNotifyOne; Run 1])))), EvTau).
Proof.
  destruct (waiter_count_exact (after 2 (waiting (CWait 0) ++ [Call 1 CNotifyOne; Run 1]))
              (after_reachable 2 (waiting (CWait 0) ++ [Call 1 CNotifyOne; Run 1])) eq_refl)
    as (H1 & H2).
  exact (conj H1 (H2 1 NOTIFY_ONE eq_refl)).
Defined.

(** ** While a notification is under way *)

Lemma inside_notify_holds th : inside_notify th = true -> holds_enter th = true.
Proof. destruct th as [|[] ?|[] ?|]; simpl; intros H; try discriminate H; auto. Qed.

(** While a notification is under way the mutex is locked and whoever
    answers for it is the notifier or the waiter that took the
    notification over. *)
Lemma notifying_holder w :
  Inv w -> 1 <= notifying w ->
  m_enter_mut (cv (mem w)) <> None /\
  forall u thu, threads w !! u = Some thu -> holds_enter thu = true ->
    consumer thu = true \/ inside_notify thu = true.
Proof.
  intros HI Hn. unfold notifying, cmd_tok in Hn.
  destruct (Z.eqb_spec (m_command (cv (mem w))) SLEEP) as [Hc|Hc].
  - assert (Hex : 1 <= count (fun th => consumer th || inside_notify th) (threads w)).
    { clear -Hn. simpl in Hn. induction (threads w) as [|x l IH]; simpl in *; [lia|].
      destruct (consumer x), (inside_notify x); simpl in *; lia. }
    apply count_exists in Hex as (v & thv & Hv & Hor).
    assert (Hh : holds_enter thv = true).
    { apply orb_true_iff in Hor as [H|H];
        [now apply consumer_holds|now apply inside_notify_holds]. }
    destruct (enter_exclusive w v thv HI Hv Hh) as (_ & He & Hx).
    split; [exact He|]. intros u thu Hu Hhu.
    destruct (decide (u = v)) as [-> | Hne].
    + assert (thu = thv) by congruence. subst. now apply orb_true_iff.
    + rewrite (Hx u thu Hne Hu) in Hhu. discriminate.
  - destruct (command_exclusive w HI Hc) as [He Hx].
    split; [exact He|]. intros u thu Hu Hhu. rewrite (Hx u thu Hu) in Hhu. discriminate.
Qed.

(** The steps that register and unregister. *)
Lemma registered_change t s th s' th' ev :
  thread_step t s th = Some (s', th', ev) ->
  match th with
  | InWait W91 _ => registered th = false /\ registered th' = true
  | InWait (W134 | W156 | W162) _ => registered th = true /\ registered th' = false
  | _ => registered th' = registered th
  end.
Proof.
  intros Hs. destruct th as [|[] c|[] fr|r]; [discriminate Hs| .. ];
    step_cases Hs; simpl; auto.
Qed.

(** While a notification is under way, no notifier and no new waiter gets
    past its lock of [m_enter_mut] (lines 46 and 86), no thread registers
    and no waiter times out: the registered waiters are those of the
    moment the notifier read the count, less the ones the notification
    released at lines 156 and 162. *)
Theorem no_entry_during_notification w l w' ev :
  reachable w -> 1 <= notifying w -> step l w = Some (w', ev) ->
  (forall t c, threads w !! t = Some (InNotify N46 c) -> step (Run t) w = None) /\
  (forall t fr, threads w !! t = Some (InWait W86 fr) -> step (Run t) w = None) /\
  (forall u thu', threads w' !! u = Some thu' -> registered thu' = true ->
     exists thu, threads w !! u = Some thu /\ registered thu = true) /\
  ev <> EvTimedOut /\
  (count registered (threads w') = count registered (threads w) \/
   exists t fr, l = Run t /\
     (threads w !! t = Some (InWait W156 fr) \/ threads w !! t = Some (InWait W162 fr)) /\
     S (count registered (threads w')) = count registered (threads w)).
Proof.
  intros Hr Hn H. pose proof (Inv_reachable w Hr) as HI.
  destruct (notifying_holder w HI Hn) as [He Hh].
  split; [|split].
  { intros t c Ht. simpl. rewrite Ht. simpl.
    destruct (m_enter_mut (cv (mem w))); [reflexivity|now elim He]. }
  { intros t fr Ht. simpl. rewrite Ht. simpl.
    destruct (m_enter_mut (cv (mem w))); [reflexivity|now elim He]. }
  destruct l as [t|t c|t m|t m|].
  2: { simpl in H. destruct (threads w !! t) as [[| | |]|] eqn:Ht; try discriminate.
       destruct (call_allowed t (mem w) c); [|discriminate]. injection H as <- <-. simpl.
       split; [|split; [discriminate|left]].
       - intros u thu' Hu Hreg. destruct (decide (u = t)) as [-> | Hne].
         + rewrite (insert_lookup_same _ _ _ _ Ht) in Hu. injection Hu as <-.
           destruct c; discriminate.
         + rewrite list_lookup_insert_ne in Hu by congruence. eauto.
       - pose proof (count_insert registered _ _ _ (enter_call c) Ht) as E.
         destruct c; simpl in *; lia. }
  2-4: other_label H; (split; [eauto|split; [discriminate|left; reflexivity]]).
  apply step_run_inv in H as (th & s' & th' & Ht & Hs & ->). simpl.
  pose proof (registered_change _ _ _ _ _ _ Hs) as Hch.
  pose proof (count_insert registered _ _ _ th' Ht) as Hcnt.
  assert (Hnot : forall pc fr, th = InWait pc fr -> pc <> W91 /\ pc <> W134 /\
                   (pc = W115 -> ev <> EvTimedOut)).
  { intros pc fr ->. repeat split; intros ->.
    - destruct (Hh t _ Ht eq_refl); discriminate.
    - destruct (Hh t _ Ht eq_refl); discriminate.
    - simpl in Hs. destruct (m_enter_mut (cv (mem w))); [|now elim He].
      simpl in Hs. injection Hs as <- <- <-. discriminate. }
  split; [|split].
  - intros u thu' Hu Hreg. destruct (decide (u = t)) as [-> | Hne].
    + rewrite (insert_lookup_same _ _ _ _ Ht) in Hu. injection Hu as <-.
      exists th. split; [assumption|].
      destruct th as [|[] c|[] fr|r]; simpl in Hch; try reflexivity; try congruence.
      all: try (destruct Hch; congruence).
      destruct (Hnot _ _ eq_refl) as (F & _). now elim F.
    + rewrite list_lookup_insert_ne in Hu by congruence. eauto.
  - destruct th as [|[] c|[] fr|r]; [discriminate Hs| .. ];
      try (step_cases Hs; discriminate).
    apply (Hnot _ _ eq_refl). reflexivity.
  - destruct th as [|[] c|[] fr|r]; simpl in Hch;
      try (left; rewrite Hch in Hcnt; simpl in Hcnt; lia).
    + destruct (Hnot _ _ eq_refl) as (F & _). now elim F.
    + destruct (Hnot _ _ eq_refl) as (_ & F & _). now elim F.
    + right. exists t, fr. split; [reflexivity|]. split; [now left|].
      destruct Hch as [_ E2]. rewrite E2 in Hcnt. simpl in Hcnt. lia.
    + right. exists t, fr. split; [reflexivity|]. split; [now right|].
      destruct Hch as [_ E2]. rewrite E2 in Hcnt. simpl in Hcnt. lia.
Qed.

Lemma no_entry_during_notification_witness :
  step (Run 0) (after 2 (sc_notifying CNotifyOne ++ [Run 1; Run 1; Call 1 (CNotifyAll)])) <> None /\
  step (Run 1) (after 2 (sc_notifying CNotifyOne ++ [Run 1; Run 1; Call 1 (CNotifyAll)])) = None.
Proof.
  destruct (no_entry_during_notification
              (after 2 (sc_notifying CNotifyOne ++ [Run 1; Run 1; Call 1 (CNotifyAll)]))
              (Run 0)
              (after 2 (sc_notifying CNotifyOne ++ [Run 1; Run 1; Call 1 (CNotifyAll); Run 0]))
              EvTau (after_reachable 2 _) (le_n 1) eq_refl) as (H1 & _).
  split; [discriminate|]. exact (H1 1 NOTIFY_ALL eq_refl).
Defined.

(** The compare-exchange of line 166 runs when the count is zero: with
    fewer than 2^31 threads, a NOTIFY_ALL goes back to SLEEP only when
    every registered waiter has left. *)
Theorem reset_after_last_waiter w l w' old new :
  reachable w -> step l w = Some (w', EvReset old new) ->
  old = NOTIFY_ALL /\ new = SLEEP /\
  m_command (cv (mem w')) = SLEEP /\ m_num_waiters (cv (mem w')) = 0%Z /\
  ((Z.of_nat (length (threads w)) < 2 ^ 31)%Z -> count registered (threads w') = 0).
Proof.
  intros Hr H. pose proof (Inv_reachable w Hr) as HI.
  pose proof (Inv_step _ _ _ _ HI H) as HI'.
  pose proof (step_event _ _ _ _ HI H) as (-> & -> & Hc & Hc').
  assert (Hl : length (threads w') = length (threads w)).
  { destruct l as [t| | | |]; [|other_label H..].
    apply step_run_inv in H as (th & s' & th' & Ht & Hs & ->). simpl.
    now rewrite length_insert. }
  assert (Hz : m_num_waiters (cv (mem w')) = 0%Z).
  { destruct l as [t| | | |]; [|other_label H..].
    pose proof H as H'.
    apply step_run_inv in H' as (th & s' & th' & Ht & Hs & ->). simpl.
    pose proof (inv_threads _ HI _ _ Ht) as Hth.
    destruct th as [|[] c|[] fr|r]; simpl in Hs, Hth; repeat case_match; simplify_eq.
    all: simpl; tauto. }
  repeat split; auto.
  intros Hlen. pose proof (count_le_length registered (threads w')) as Hle.
  rewrite (inv_waiters _ HI'), wrap_long_small in Hz by lia. lia.
Qed.

Lemma reset_after_last_waiter_witness :
  count registered (threads (after 2 (sc_notified CNotifyAll ++ [Run 0; Run 0; Run 0]))) = 0.
Proof.
  destruct (reset_after_last_waiter
              (after 2 (sc_notified CNotifyAll ++ [Run 0; Run 0])) (Run 0)
              (after 2 (sc_notified CNotifyAll ++ [Run 0; Run 0; Run 0]))
              NOTIFY_ALL SLEEP (after_reachable 2 _) eq_refl) as (_ & _ & _ & _ & H).
  exact (H eq_refl).
Defined.

(** ** The way out on a timeout *)

(** A timed waiter at the head of the spin loop whose deadline has passed,
    with [m_enter_mut] and its external mutex free, times out in seven
    steps of its own: it reads SLEEP, reads the clock, wins the try_lock,
    decrements the count, unlocks [m_enter_mut], relocks the external
    mutex and returns [false].  The condition is then as before, with the
    waiter off the count; [m_check_mut] was never touched. *)
Theorem timeout_unregisters w t fr :
  reachable w -> threads w !! t = Some (InWait W105 fr) ->
  tout_enabled fr = true -> abs_time fr <= clock (mem w) ->
  m_enter_mut (cv (mem w)) = None -> ext (mem w) (mut fr) = None ->
  exists w' h,
    run [Run t; Run t; Run t; Run t; Run t; Run t; Run t] w [] = Some (w', h) /\
    h = [(Run t, EvReturn (Some false)); (Run t, EvTau); (Run t, EvTau); (Run t, EvTau);
         (Run t, EvTimedOut); (Run t, EvTau); (Run t, EvTau)] /\
    threads w' = <[t := Idle]> (threads w) /\
    cv (mem w') = mkCondition SLEEP (fst (interlocked_decrement (m_num_waiters (cv (mem w)))))
                    None (m_check_mut (cv (mem w))) /\
    m_command (cv (mem w)) = SLEEP /\
    S (count registered (threads w')) = count registered (threads w) /\
    ext (mem w') (mut fr) = Some t /\
    (forall m, m <> mut fr -> ext (mem w') m = ext (mem w) m) /\
    clock (mem w') = clock (mem w).
Proof.
  intros Hr Ht Hto Hd He Hx. pose proof (Inv_reachable w Hr) as HI.
  assert (Hcmd : m_command (cv (mem w)) = SLEEP).
  { pose proof (inv_enter w HI) as E. rewrite He in E. unfold cmd_tok in E. simpl in E.
    destruct (Z.eqb_spec (m_command (cv (mem w))) SLEEP); [assumption|lia]. }
  pose proof (inv_threads _ HI _ _ Ht) as (_ & Htm & Hun).
  pose proof (count_insert registered _ _ _ Idle Ht) as Hcnt. simpl in Hcnt.
  destruct w as [[[cmd nw en ck] ex cl] l]. destruct fr as [te ab mu nn tm un].
  simpl in *. subst.
  assert (Hl : t < length l) by (eapply lookup_lt_Some; eauto).
  apply Nat.leb_le in Hd.
  eexists _, _. split.
  - rewrite Ht. simpl.
    rewrite list_lookup_insert_eq by assumption. simpl. rewrite Hd. simpl.
    rewrite list_lookup_insert_eq by (rewrite !length_insert; assumption). simpl.
    rewrite list_lookup_insert_eq by (rewrite !length_insert; assumption). simpl.
    rewrite list_lookup_insert_eq by (rewrite !length_insert; assumption). simpl.
    rewrite list_lookup_insert_eq by (rewrite !length_insert; assumption). simpl.
    rewrite Hx. simpl.
    rewrite list_lookup_insert_eq by (rewrite !length_insert; assumption). simpl.
    reflexivity.
  - simpl. rewrite !list_insert_insert_eq, Nat.eqb_refl.
    repeat split; try reflexivity; try lia.
    intros m Hm. destruct (Nat.eqb_spec m mu); [contradiction|reflexivity].
Qed.

Lemma timeout_unregisters_witness :
  cv (mem (after 1 (waiting (CTimedWait 1 0) ++ [Tick; Run 0; Run 0; Run 0; Run 0; Run 0; Run 0; Run 0])))
  = constructed.
Proof.
  destruct (timeout_unregisters (after 1 (waiting (CTimedWait 1 0) ++ [Tick])) 0
              (mkFrame true 1 0 0 false false)
              (after_reachable 1 _) eq_refl eq_refl (le_n 1) eq_refl eq_refl)
    as (w' & h & H1 & _ & _ & H2 & _).
  vm_compute in H1. injection H1 as <- _. exact H2.
Defined.

(** ** Deadlines *)

Lemma dinv_later s s' lc th :
  clock s <= clock s' -> dinv s lc th -> dinv s' lc th.
Proof.
  intros Hc. destruct th as [|pc c|pc fr|[[|]|]]; simpl; auto.
  - intros [H1 H2]. split; [lia|exact H2].
  - intros (abs & m & H1 & H2). exists abs, m. split; [assumption|lia].
Qed.

Lemma step_clock w l w' ev :
  step l w = Some (w', ev) -> clock (mem w) <= clock (mem w').
Proof.
  intros H. destruct l as [t| | | |]; [|other_label H; lia..].
  apply step_run_inv in H as (th & s' & th' & Ht & Hs & ->). simpl.
  destruct th as [|[] c|[] fr|r]; [discriminate Hs| .. ]; step_cases Hs; simpl; lia.
Qed.

Lemma step_length w l w' ev :
  step l w = Some (w', ev) -> length (threads w') = length (threads w).
Proof.
  intros H. destruct l as [t| | | |]; [|other_label H; rewrite ?length_insert; reflexivity..].
  apply step_run_inv in H as (th & s' & th' & Ht & Hs & ->). simpl.
  now rewrite length_insert.
Qed.

(** The other threads of a step: their state and their last call are as
    before. *)
Lemma step_others w l w' ev u thu :
  step l w = Some (w', ev) -> threads w' !! u = Some thu -> acts u l = false ->
  threads w !! u = Some thu /\ forall h, last_call u ((l, ev) :: h) = last_call u h.
Proof.
  intros H Hu Ha.
  assert (Hlc : forall h, last_call u ((l, ev) :: h) = last_call u h).
  { intros h. simpl. rewrite Ha. now destruct ev. }
  split; [|exact Hlc].
  destruct l as [t|t c|t m|t m|]; simpl in Ha.
  - apply step_run_inv in H as (th & s' & th' & Ht & Hs & ->). simpl in Hu.
    apply Nat.eqb_neq in Ha. now rewrite list_lookup_insert_ne in Hu by congruence.
  - other_label H. apply Nat.eqb_neq in Ha.
    now rewrite list_lookup_insert_ne in Hu by congruence.
  - other_label H. assumption.
  - other_label H. assumption.
  - other_label H. assumption.
Qed.

Lemma deadlines_step h w l w' ev :
  Inv w -> hinv h w -> deadlines h w -> step l w = Some (w', ev) ->
  deadlines ((l, ev) :: h) w'.
Proof.
  intros HI HK HD H u thu Hu.
  pose proof (step_clock _ _ _ _ H) as Hclk.
  destruct (acts u l) eqn:Ha.
  2: { destruct (step_others _ _ _ _ _ _ H Hu Ha) as [Hu' ->].
       eapply dinv_later; [exact Hclk|]. now apply HD. }
  destruct l as [t|t c|t m|t m|]; simpl in Ha; try discriminate;
    apply Nat.eqb_eq in Ha; subst t.
  - apply step_run_inv in H as (th & s' & th' & Ht & Hs & ->). simpl in *.
    rewrite (insert_lookup_same _ _ _ _ Ht) in Hu. injection Hu as <-.
    specialize (HK u th Ht). specialize (HD u th Ht).
    pose proof (inv_threads _ HI _ _ Ht) as Hth.
    rewrite Nat.eqb_refl.
    destruct th as [|[] c|[] fr|r]; [discriminate Hs| .. ];
      step_cases Hs; simpl in *; unfold call_of_frame in *; simpl in *;
      split_hyps; split_flags; simpl in *; try congruence; try tauto.
    all: repeat match goal with
         | H : (_ <=? _) = true |- _ => apply Nat.leb_le in H
         | H : (_ <=? _) = false |- _ => apply Nat.leb_gt in H
         | H : _ && _ = true |- _ => apply andb_true_iff in H; destruct H
         end.
    all: try solve [repeat split; auto; try lia; intros; try congruence; try lia].
    all: try solve [destruct_or?; split_hyps; try congruence;
                    eexists _, _; split; [eassumption|]; lia].
    all: try solve [match goal with
                    | |- match (if ?b then _ else _) with _ => _ end => destruct b
                    end; simpl; auto; try congruence;
                    destruct_or?; split_hyps; try congruence;
                    try (eexists _, _; split; [eassumption|lia])].
  - other_label H.
    match goal with
    | E : threads w !! u = Some Idle |- _ =>
        rewrite (insert_lookup_same _ _ _ _ E) in Hu
    end.
    injection Hu as <-. destruct c; simpl; auto; split; auto; lia.
  - other_label H. rewrite Hu in *. simplify_eq. exact I.
  - other_label H. rewrite Hu in *. simplify_eq. exact I.
Qed.

Lemma deadlines_exec n h w : exec (init n) h w -> deadlines h w.
Proof.
  intros H. remember (init n) as w0 eqn:E. induction H; subst.
  - intros t th Ht. apply lookup_replicate in Ht as [-> _]. exact I.
  - eapply deadlines_step; eauto.
    + eapply Inv_exec; [apply Inv_init|eassumption].
    + eapply hinv_exec; eauto.
Qed.

(** A timed wait reports a timeout only once its deadline has passed: a
    call that returns [false] is a timed wait, and the clock has reached
    its deadline. *)
Theorem no_timeout_before_deadline n h l w :
  exec (init n) ((l, EvReturn (Some false)) :: h) w ->
  exists t abs m, l = Run t /\ last_call t h = Some (CTimedWait abs m) /\
    abs <= clock (mem w).
Proof.
  intros H. inversion H as [|? ? w1 ? ? ? He Hs]; subst.
  apply step_return in Hs as (t & -> & Ht & ->).
  destruct (deadlines_exec _ _ _ He t _ Ht) as (abs & m & H1 & H2).
  exists t, abs, m. auto.
Qed.

Lemma no_timeout_before_deadline_witness :
  exists t abs m, Run 0 = Run t /\
    last_call t (tl (history_after 1 (sc_deadline ++ [Run 0; Run 0; Run 0; Run 0; Run 0])))
    = Some (CTimedWait abs m) /\
    abs <= clock (mem (after 1 (sc_deadline ++ [Run 0; Run 0; Run 0; Run 0; Run 0]))).
Proof.
  exact (no_timeout_before_deadline 1
           (tl (history_after 1 (sc_deadline ++ [Run 0; Run 0; Run 0; Run 0; Run 0])))
           (Run 0) (after 1 (sc_deadline ++ [Run 0; Run 0; Run 0; Run 0; Run 0]))
           (after_exec 1 (sc_deadline ++ [Run 0; Run 0; Run 0; Run 0; Run 0]))).
Defined.

(** ** Wake-ups *)

Lemma notified_since_other t l ev h :
  acts t l = false -> notified_since t h = true -> notified_since t ((l, ev) :: h) = true.
Proof. intros Ha Hn. simpl. rewrite Ha. now destruct ev. Qed.

Lemma woken_step h w l w' ev :
  Inv w -> woken h w -> step l w = Some (w', ev) -> woken ((l, ev) :: h) w'.
Proof.
  intros HI HW H u thu Hu.
  pose proof (step_event _ _ _ _ HI H) as Hev. simpl in Hev.
  destruct (acts u l) eqn:Ha.
  2: { destruct (step_others _ _ _ _ _ _ H Hu Ha) as [Hu' _].
       specialize (HW u thu Hu').
       assert (Hmono : notified_since u h = true -> notified_since u ((l, ev) :: h) = true)
         by (now apply notified_since_other).
       assert (Hcmd : m_command (cv (mem w')) <> SLEEP ->
                      notified_since u ((l, ev) :: h) = true \/
                      m_command (cv (mem w)) <> SLEEP).
       { intros Hc. destruct ev; try (right; congruence).
         - left. reflexivity.
         - destruct Hev as (-> & Hif). destruct (Z.eqb_spec (m_command (cv (mem w))) NOTIFY_ONE);
             [congruence|right; congruence].
         - destruct Hev as (_ & _ & _ & E). congruence. }
       destruct thu as [|pc c|[] fr|[[|]|]]; simpl in *; auto.
       all: intros Hc; destruct (Hcmd Hc); auto. }
  destruct l as [t|t c|t m|t m|]; simpl in Ha; try discriminate;
    apply Nat.eqb_eq in Ha; subst t.
  - clear Hev. pose proof H as H'.
    apply step_run_inv in H' as (th & s' & th' & Ht & Hs & ->). simpl in *.
    rewrite (insert_lookup_same _ _ _ _ Ht) in Hu. injection Hu as <-.
    specialize (HW u th Ht).
    pose proof (inv_threads _ HI _ _ Ht) as Hth.
    pose proof (enter_exclusive _ _ _ HI Ht) as HE.
    pose proof (inv_cmd _ HI) as Hcmd. pose proof (cmd_read _ Hcmd) as Rc.
    destruct th as [|[] c|[] fr|r]; [discriminate Hs| .. ];
      step_cases Hs; simpl in *; split_hyps; split_flags; simpl in *;
      rewrite ?Rc in *; try congruence; try tauto.
    all: try (specialize (HE eq_refl); destruct HE as (HE & _); congruence).
    all: try solve [destruct r as [[|]|]; simpl; auto].
    all: try solve [intros; apply HW; unfold SLEEP, NOTIFY_ONE, NOTIFY_ALL in *; congruence].
    all: try solve [apply HW; unfold SLEEP, NOTIFY_ONE, NOTIFY_ALL in *; congruence].
  - other_label H.
    match goal with
    | E : threads w !! u = Some Idle |- _ =>
        rewrite (insert_lookup_same _ _ _ _ E) in Hu
    end.
    injection Hu as <-. unfold ninv, enter_call. repeat case_match; simplify_eq; auto.
  - other_label H. rewrite Hu in *. simplify_eq. exact I.
  - other_label H. rewrite Hu in *. simplify_eq. exact I.
Qed.

Lemma woken_exec n h w : exec (init n) h w -> woken h w.
Proof.
  intros H. remember (init n) as w0 eqn:E. induction H; subst.
  - intros t th Ht. apply lookup_replicate in Ht as [-> _]. exact I.
  - eapply woken_step; eauto. eapply Inv_exec; [apply Inv_init|eassumption].
Qed.

(** A wait returns [true] only if a compare-exchange of line 55 stored a
    command after the wait was called: no waiter wakes up on its own, and
    none on a notification older than its call. *)
Theorem no_spurious_wakeup n h l w :
  exec (init n) ((l, EvReturn (Some true)) :: h) w ->
  exists t, l = Run t /\ notified_since t h = true.
Proof.
  intros H. inversion H as [|? ? w1 ? ? ? He Hs]; subst.
  apply step_return in Hs as (t & -> & Ht & ->).
  exists t. split; [reflexivity|]. exact (woken_exec _ _ _ He t _ Ht).
Qed.

Lemma no_spurious_wakeup_witness :
  exists t, Run 0 = Run t /\ notified_since t (tl (history_after 2 sc_released_one)) = true.
Proof.
  exact (no_spurious_wakeup 2 (tl (history_after 2 sc_released_one)) (Run 0)
           (after 2 sc_released_one) (after_exec 2 sc_released_one)).
Defined.

(** ** Counting wake-ups *)

Lemma leaving_step w l w' ev :
  Inv w -> step l w = Some (w', ev) ->
  Nat.b2n (returned_true ev) + count leaving (threads w')
  = count leaving (threads w) + Nat.b2n (consumed_one ev) + Nat.b2n (observed_all ev).
Proof.
  intros HI H.
  destruct l as [t|t c|t m|t m|].
  2: { simpl in H. destruct (threads w !! t) as [[| | |]|] eqn:Ht; try discriminate.
       destruct (call_allowed t (mem w) c); [|discriminate]. injection H as <- <-. simpl.
       pose proof (count_insert leaving _ _ _ (enter_call c) Ht) as E.
       destruct c; simpl in *; lia. }
  2-4: other_label H; lia.
  apply step_run_inv in H as (th & s' & th' & Ht & Hs & ->). simpl.
  pose proof (count_insert leaving _ _ _ th' Ht) as E.
  pose proof (inv_threads _ HI _ _ Ht) as Hth.
  pose proof (inv_cmd _ HI) as Hcmd.
  destruct th as [|[] c|[] fr|r]; [discriminate Hs| .. ];
    step_cases Hs; simpl in *; split_hyps;
    repeat match goal with
    | E : timed_out _ = _ |- _ => rewrite E in *
    | E : m_command _ = _ |- _ => rewrite E in *
    end; simpl in *; try lia.
  all: try (unfold SLEEP, NOTIFY_ONE, NOTIFY_ALL in *; destruct_or?; congruence).
  all: try solve [destruct (timed_out fr); simpl in *; lia].
  all: try solve [destruct r as [[|]|]; simpl in *; lia].
  all: unfold SLEEP, NOTIFY_ONE, NOTIFY_ALL in *; destruct_or?;
       repeat match goal with
       | E : m_command _ = _ |- _ => rewrite E in *
       end; simpl in *; try lia; try congruence.
Qed.

Lemma leaving_exec n h w :
  exec (init n) h w ->
  occurrences returned_true h + count leaving (threads w)
  = occurrences consumed_one h + occurrences observed_all h.
Proof.
  intros H. remember (init n) as w0 eqn:E. induction H; subst.
  - simpl. rewrite count_replicate by reflexivity. reflexivity.
  - specialize (IHexec eq_refl).
    pose proof (Inv_exec _ _ _ (Inv_init n) H) as HI.
    pose proof (leaving_step _ _ _ _ HI H0). simpl. lia.
Qed.

(** NOTIFY_ALL is found only after it was stored. *)
Lemma observed_all_stored n h w :
  exec (init n) h w ->
  occurrences (notified_with NOTIFY_ALL) h = 0 -> occurrences observed_all h = 0.
Proof.
  intros H. remember (init n) as w0 eqn:E. induction H; subst; [reflexivity|].
  specialize (IHexec eq_refl). simpl. intros Hz.
  assert (Hz' : occurrences (notified_with NOTIFY_ALL) h = 0) by lia.
  rewrite (IHexec Hz').
  pose proof (Inv_exec _ _ _ (Inv_init n) H) as HI.
  pose proof (step_event _ _ _ _ HI H0) as Hev. simpl in Hev.
  destruct (accounting _ _ _ (Inv_init n) H) as [_ Hacc].
  unfold pending in Hacc. simpl in Hacc.
  destruct ev; simpl; try reflexivity.
  destruct Hev as [-> _].
  destruct (Z.eqb_spec (m_command (cv (mem w1))) NOTIFY_ALL); simpl in *; lia.
Qed.

(** Every wait that has returned [true], or is on its way to, stands
    for one compare-exchange of line 144 that found a command.  As long as
    no NOTIFY_ALL was stored, every NOTIFY_ONE stored is still pending, or
    has one waiter on its way out, or has made one wait return [true]: a
    call of [notify_one] wakes one waiter and no more. *)
Theorem notify_one_wakes_at_most_one n h w :
  exec (init n) h w ->
  occurrences returned_true h + count leaving (threads w)
  = occurrences consumed_one h + occurrences observed_all h /\
  (occurrences (notified_with NOTIFY_ALL) h = 0 ->
   occurrences returned_true h + count leaving (threads w)
   + pending NOTIFY_ONE w = occurrences (notified_with NOTIFY_ONE) h).
Proof.
  intros H. pose proof (leaving_exec _ _ _ H) as E. split; [exact E|].
  intros Hz. rewrite (observed_all_stored _ _ _ H Hz) in E.
  destruct (accounting _ _ _ (Inv_init n) H) as [Hacc _].
  unfold pending in *. simpl in Hacc. lia.
Qed.

Lemma notify_one_wakes_at_most_one_witness :
  occurrences returned_true (history_after 2 sc_released_one)
  + count leaving (threads (after 2 sc_released_one))
  + pending NOTIFY_ONE (after 2 sc_released_one)
  = occurrences (notified_with NOTIFY_ONE) (history_after 2 sc_released_one).
Proof.
  exact (proj2 (notify_one_wakes_at_most_one 2 (history_after 2 sc_released_one)
                  (after 2 sc_released_one) (after_exec 2 sc_released_one)) eq_refl).
Defined.

(** ** Calls and what they return *)

(** No step takes an external mutex from a thread that is inside a call
    or returning from one. *)
Lemma ext_kept w l w' ev u thu m :
  Inv w -> step l w = Some (w', ev) -> threads w !! u = Some thu -> thu <> Idle ->
  acts u l = false -> ext (mem w) m = Some u -> ext (mem w') m = Some u.
Proof.
  intros HI H Hu Hni Ha Hm.
  destruct l as [t|t c|t m'|t m'|]; simpl in Ha.
  - apply Nat.eqb_neq in Ha.
    apply step_run_inv in H as (th & s' & th' & Ht & Hs & ->). simpl.
    pose proof (inv_threads _ HI _ _ Ht) as Hth.
    destruct th as [|[] c|[] fr|r]; [discriminate Hs| .. ];
      step_cases Hs; simpl in *; auto.
    all: destruct (Nat.eqb_spec m (mut fr)); auto; subst; split_hyps; try congruence.
  - other_label H. assumption.
  - simpl in H. destruct (threads w !! t) as [[| | |]|]; try discriminate.
    unfold mutex_lock in H. destruct (Nat.eqb_spec m m') as [-> | Hne].
    + rewrite Hm in H. discriminate.
    + destruct (ext (mem w) m'); [discriminate|]. injection H as <- <-. simpl.
      destruct (Nat.eqb_spec m m'); [contradiction|assumption].
  - simpl in H. destruct (threads w !! t) as [[| | |]|]; try discriminate.
    apply Nat.eqb_neq in Ha. destruct (Nat.eqb_spec m m') as [-> | Hne].
    + rewrite Hm in H. destruct (Nat.eqb_spec u t); [congruence|discriminate].
    + destruct (ext (mem w) m') as [o|]; [|discriminate].
      destruct (o =? t); [|discriminate]. injection H as <- <-. simpl.
      destruct (Nat.eqb_spec m m'); [contradiction|assumption].
  - other_label H. assumption.
Qed.

Lemma calls_step h w l w' ev :
  Inv w -> hinv h w -> calls h w -> step l w = Some (w', ev) -> calls ((l, ev) :: h) w'.
Proof.
  intros HI HK HC H u thu Hu.
  destruct (acts u l) eqn:Ha.
  2: { destruct (step_others _ _ _ _ _ _ H Hu Ha) as [Hu' ->].
       specialize (HC u thu Hu').
       destruct thu as [|pc c|pc fr|[b|]]; simpl in *; auto.
       destruct HC as (cl & m & H1 & H2 & H3). exists cl, m. repeat split; auto.
       eapply ext_kept; eauto. }
  destruct l as [t|t c|t m|t m|]; simpl in Ha; try discriminate;
    apply Nat.eqb_eq in Ha; subst t.
  - apply step_run_inv in H as (th & s' & th' & Ht & Hs & ->). simpl in *.
    rewrite (insert_lookup_same _ _ _ _ Ht) in Hu. injection Hu as <-.
    specialize (HK u th Ht). specialize (HC u th Ht).
    pose proof (inv_threads _ HI _ _ Ht) as Hth.
    rewrite Nat.eqb_refl.
    destruct th as [|[] c|[] fr|r]; [discriminate Hs| .. ];
      step_cases Hs; simpl in *; unfold call_of_frame in *; simpl in *;
      split_hyps; try exact I; try assumption.
    all: try solve [destruct r as [b|]; exact I].
    all: rewrite ?Nat.eqb_refl;
         match goal with
         | E : last_call _ _ = Some _ |- _ => rewrite E
         end;
         destruct (tout_enabled fr); eexists _, _; repeat split; eauto.
    all: now rewrite Nat.eqb_refl.
  - simpl in H. destruct (threads w !! u) as [[| | |]|] eqn:Ht; try discriminate.
    destruct (call_allowed u (mem w) c); [|discriminate]. injection H as <- <-.
    simpl in Hu. rewrite (insert_lookup_same _ _ _ _ Ht) in Hu. injection Hu as <-.
    simpl. rewrite Nat.eqb_refl. destruct c; simpl; eauto.
  - other_label H. rewrite Hu in *. simplify_eq. exact I.
  - other_label H. rewrite Hu in *. simplify_eq. exact I.
Qed.

Lemma calls_exec n h w : exec (init n) h w -> calls h w.
Proof.
  intros H. remember (init n) as w0 eqn:E. induction H; subst.
  - intros t th Ht. apply lookup_replicate in Ht as [-> _]. exact I.
  - eapply calls_step; eauto.
    + eapply Inv_exec; [apply Inv_init|eassumption].
    + eapply hinv_exec; eauto.
Qed.

(** The command that line 55 stores is the one of the call: NOTIFY_ONE
    by a call of [notify_one], NOTIFY_ALL by a call of [notify_all], and
    it is stored over SLEEP. *)
Theorem notify_stores_its_command n h l old new w :
  exec (init n) ((l, EvNotified old new) :: h) w ->
  exists t cl, l = Run t /\ last_call t h = Some cl /\ command_of cl = Some new /\
    old = SLEEP /\ m_command (cv (mem w)) = new.
Proof.
  intros H. inversion H as [|? ? w1 ? ? ? He Hs]; subst.
  pose proof (Inv_exec _ _ _ (Inv_init n) He) as HI.
  pose proof (step_event _ _ _ _ HI Hs) as (-> & _ & Hc & _).
  destruct l as [t| | | |]; [|other_label Hs..].
  pose proof Hs as Hs'.
  apply step_run_inv in Hs' as (th & s' & th' & Ht & Hst & ->).
  pose proof (calls_exec _ _ _ He t _ Ht) as HC.
  pose proof (inv_threads _ HI _ _ Ht) as Hth.
  destruct th as [|[] c|[] fr|r]; simpl in Hst, Hth; repeat case_match; simplify_eq.
  all: simpl in HC; destruct HC as (cl & HC1 & HC2); exists t, cl; repeat split; auto.
  all: repeat match goal with
       | E : (_ =? _)%Z = false |- _ => apply Z.eqb_neq in E
       end; simpl in *; congruence.
Qed.

Lemma notify_stores_its_command_witness :
  exists t cl, Run 1 = Run t /\
    last_call t (history_after 2 (sc_notifying CNotifyAll)) = Some cl /\
    command_of cl = Some NOTIFY_ALL /\ SLEEP = SLEEP /\
    m_command (cv (mem (after 2 (sc_notifying CNotifyAll ++ [Run 1])))) = NOTIFY_ALL.
Proof.
  exact (notify_stores_its_command 2 (history_after 2 (sc_notifying CNotifyAll)) (Run 1)
           SLEEP NOTIFY_ALL (after 2 (sc_notifying CNotifyAll ++ [Run 1]))
           (after_exec 2 (sc_notifying CNotifyAll ++ [Run 1]))).
Defined.

(** Whatever a wait returns, its caller owns the external mutex it
    passed when the call returns. *)
Theorem wait_returns_with_mutex n h l b w :
  exec (init n) ((l, EvReturn (Some b)) :: h) w ->
  exists t cl m, l = Run t /\ last_call t h = Some cl /\ mutex_of cl = Some m /\
    ext (mem w) m = Some t.
Proof.
  intros H. inversion H as [|? ? w1 ? ? ? He Hs]; subst.
  apply step_return in Hs as (t & -> & Ht & ->).
  destruct (calls_exec _ _ _ He t _ Ht) as (cl & m & H1 & H2 & H3).
  exists t, cl, m. auto.
Qed.

Lemma wait_returns_with_mutex_witness :
  exists t cl m, Run 0 = Run t /\
    last_call t (tl (history_after 2 sc_released_all)) = Some cl /\
    mutex_of cl = Some m /\ ext (mem (after 2 sc_released_all)) m = Some t.
Proof.
  exact (wait_returns_with_mutex 2 (tl (history_after 2 sc_released_all)) (Run 0) true
           (after 2 sc_released_all) (after_exec 2 sc_released_all)).
Defined.

(** A wait without deadline never gives up: its steps never find the
    deadline passed at line 79, and never try the lock of line 115. *)
Theorem wait_never_times_out n h t ev w m :
  exec (init n) ((Run t, ev) :: h) w -> last_call t h = Some (CWait m) ->
  ev <> EvExpired /\ ev <> EvTimedOut /\ ev <> EvContended /\
  ev <> EvReturn (Some false).
Proof.
  intros H Hl. inversion H as [|? ? w1 ? ? ? He Hs]; subst.
  pose proof (Inv_exec _ _ _ (Inv_init n) He) as HI.
  apply step_run_inv in Hs as (th & s' & th' & Ht & Hst & ->).
  pose proof (hinv_exec _ _ _ He t _ Ht) as HK.
  pose proof (inv_threads _ HI _ _ Ht) as Hth.
  destruct th as [|[] c|[] fr|r]; [discriminate Hst| .. ];
    step_cases Hst; simpl in *; unfold call_of_frame in *;
    split_hyps; split_flags; simpl in *; try congruence.
  all: try solve [repeat split; discriminate].
  all: destruct r as [[|]|]; try solve [repeat split; discriminate].
  all: destruct HK as (cl & E & _ & [(_ & _ & abs & m' & ->) | (? & _)]); congruence.
Qed.

Lemma wait_never_times_out_witness :
  EvObserved NOTIFY_ONE <> EvExpired /\ EvObserved NOTIFY_ONE <> EvTimedOut /\
  EvObserved NOTIFY_ONE <> EvContended /\ EvObserved NOTIFY_ONE <> EvReturn (Some false).
Proof.
  exact (wait_never_times_out 2 (history_after 2 (sc_notified CNotifyOne)) 0
           (EvObserved NOTIFY_ONE) (after 2 (sc_notified CNotifyOne ++ [Run 0])) 0
           (after_exec 2 (sc_notified CNotifyOne ++ [Run 0])) eq_refl).
Defined.

(** ** The entry mutex can always be freed *)

Lemma frees_step w l w1 ev :
  step l w = Some (w1, ev) -> frees_enter w1 -> frees_enter w.
Proof.
  intros Hs (h & w' & He & Hf). exists (h ++ [(l, ev)]), w'. split; [|assumption].
  eapply exec_trans; [|exact He]. econstructor; [constructor|exact Hs].
Qed.

Lemma frees_now w : m_enter_mut (cv (mem w)) = None -> frees_enter w.
Proof. intros H. exists [], w. split; [constructor|assumption]. Qed.

Ltac next_step Hu tac :=
  eapply frees_step; [eapply step_run_at; [exact Hu|tac]|].

(** The thread that answers for the mutex, when it is a waiter or a
    notifier about to return, unlocks it by its own steps. *)
Lemma holder_frees w u th :
  reachable w -> threads w !! u = Some th -> holds_enter th = true ->
  (forall c, th <> InNotify N49 c) -> (forall c, th <> InNotify N55 c) ->
  frees_enter w.
Proof.
  intros Hr Hu Hh H49 H55. pose proof (Inv_reachable _ Hr) as HI.
  pose proof (inv_threads _ HI _ _ Hu) as Hth.
  assert (F175 : forall w fr, threads w !! u = Some (InWait W175 fr) ->
                   unlock_enter_mut fr = true -> frees_enter w).
  { intros w0 fr Hu0 Hf. next_step Hu0 ltac:(simpl; rewrite Hf; reflexivity).
    apply frees_now. reflexivity. }
  assert (F168 : forall w fr, threads w !! u = Some (InWait W168 fr) ->
                   unlock_enter_mut fr = true -> frees_enter w).
  { intros w0 fr Hu0 Hf. next_step Hu0 ltac:(reflexivity).
    apply (F175 _ fr); [simpl; eapply insert_lookup_same; eauto|assumption]. }
  assert (F95 : forall w fr, threads w !! u = Some (InWait W95 fr) -> frees_enter w).
  { intros w0 fr Hu0. next_step Hu0 ltac:(reflexivity). apply frees_now. reflexivity. }
  assert (F94 : forall w fr, threads w !! u = Some (InWait W94 fr) -> frees_enter w).
  { intros w0 fr Hu0. next_step Hu0 ltac:(reflexivity).
    apply (F95 _ fr). simpl. eapply insert_lookup_same; eauto. }
  destruct th as [|[] c|[] fr|]; simpl in Hh, Hth; try discriminate.
  - now elim (H49 c).
  - next_step Hu ltac:(reflexivity). apply frees_now. reflexivity.
  - now elim (H55 c).
  - next_step Hu ltac:(reflexivity). apply (F94 _ fr). simpl. eapply insert_lookup_same; eauto.
  - eauto.
  - eauto.
  - next_step Hu ltac:(reflexivity).
    apply (F175 _ (set_unlock_enter_mut true fr)); [|reflexivity].
    simpl. eapply insert_lookup_same; eauto.
  - next_step Hu ltac:(reflexivity).
    apply (F168 _ fr); [simpl; eapply insert_lookup_same; eauto|tauto].
  - eauto.
  - eauto.
Qed.

(** On the way from a pending command to SLEEP there is the world right
    after the compare-exchange that stored SLEEP, where the waiter that
    made it answers for [m_enter_mut]. *)
Lemma exec_first_sleep w h w' :
  exec w h w' -> reachable w -> m_command (cv (mem w)) <> SLEEP ->
  m_command (cv (mem w')) = SLEEP ->
  exists h1 w1 u fr,
    exec w h1 w1 /\ unlock_enter_mut fr = true /\
    (threads w1 !! u = Some (InWait W156 fr) \/ threads w1 !! u = Some (InWait W168 fr)).
Proof.
  intros He Hr Hc. induction He as [|w h w1 l w2 ev He IH Hs]; intros Hc'; [contradiction|].
  destruct (Z.eq_dec (m_command (cv (mem w1))) SLEEP) as [E|E]; [now apply IH|].
  clear IH.
  assert (Hr1 : reachable w1).
  { destruct Hr as (n & h0 & H0). exists n, (h ++ h0). eapply exec_trans; eauto. }
  pose proof (Inv_reachable _ Hr1) as HI.
  destruct l as [t| | | |];
    [|exfalso; apply E; rewrite <- Hc'; f_equal; symmetry;
      eapply step_other_mem; eauto; discriminate..].
  pose proof Hs as Hs'.
  apply step_run_inv in Hs' as (th & s' & th' & Ht & Hst & ->).
  pose proof (inv_threads _ HI _ _ Ht) as Hth.
  pose proof (inv_cmd _ HI) as Hcmd. pose proof (cmd_read _ Hcmd) as Rc.
  exists ((Run t, ev) :: h), (mkWorld s' (<[t := th']> (threads w1))), t.
  destruct th as [|[] c|[] fr|r]; [discriminate Hst| .. ];
    step_cases Hst; simpl in *; split_hyps; rewrite ?Rc in *; try congruence.
  all: try (unfold SLEEP, NOTIFY_ONE, NOTIFY_ALL in *; congruence).
  - exists (set_unlock_enter_mut true fr). split; [econstructor; eauto|].
    split; [reflexivity|]. left. eapply insert_lookup_same; eauto.
  - exists fr. split; [econstructor; eauto|].
    split; [assumption|]. right. eapply insert_lookup_same; eauto.
Qed.

Lemma pending_frees w :
  reachable w -> m_command (cv (mem w)) <> SLEEP -> frees_enter w.
Proof.
  intros Hr Hc. pose proof (Inv_reachable _ Hr) as HI.
  assert (Hdone : completes consumed_one w \/ completes is_reset w).
  { destruct (inv_cmd _ HI) as [E | [E | E]]; [contradiction| |].
    - left. now apply notify_one_can_be_consumed.
    - right. now apply notify_all_can_be_completed. }
  assert (Hex : exists h w', exec w h w' /\ m_command (cv (mem w')) = SLEEP).
  { destruct Hdone as [(h & w' & H1 & H2 & _) | (h & w' & H1 & H2 & _)]; eauto. }
  destruct Hex as (h & w' & He & Hc').
  destruct (exec_first_sleep _ _ _ He Hr Hc Hc') as (h1 & w1 & u & fr & He1 & Hf & Hu).
  assert (Hr1 : reachable w1).
  { destruct Hr as (n & h0 & H0). exists n, (h1 ++ h0). eapply exec_trans; eauto. }
  assert (Hfree : frees_enter w1).
  { destruct Hu as [Hu | Hu].
    - apply (holder_frees w1 u _ Hr1 Hu); [reflexivity|discriminate..].
    - apply (holder_frees w1 u _ Hr1 Hu); [exact Hf|discriminate..]. }
  destruct Hfree as (h2 & w2 & He2 & Hn). exists (h2 ++ h1), w2.
  split; [eapply exec_trans; eauto|assumption].
Qed.

(** [m_enter_mut] never stays locked for lack of a schedule: from every
    reachable world the threads inside the condition can bring it to a
    world where the mutex is free, so that a caller blocked at line 46 or
    at line 86 can go on. *)
Theorem enter_mutex_can_be_freed w : reachable w -> frees_enter w.
Proof.
  intros Hr. pose proof (Inv_reachable _ Hr) as HI.
  destruct (m_enter_mut (cv (mem w))) as [o|] eqn:Hm; [|now apply frees_now].
  destruct (Z.eq_dec (m_command (cv (mem w))) SLEEP) as [Hc|Hc];
    [|now apply pending_frees].
  pose proof (inv_enter _ HI) as He. rewrite Hm, Hc in He. simpl in He.
  assert (Hex : 1 <= count holds_enter (threads w)) by (unfold cmd_tok in He; simpl in He; lia).
  apply count_exists in Hex as (u & th & Hu & Hh).
  pose proof (inv_threads _ HI _ _ Hu) as Hth.
  destruct th as [|[] c|pc fr|] eqn:Eth; try discriminate.
  - (* line 49: the read of the count *)
    destruct (Z.eqb (m_num_waiters (cv (mem w))) 0) eqn:Hz.
    + assert (Hs : step (Run u) w
                   = Some (mkWorld (mem w) (<[u := InNotify N50 c]> (threads w)), EvTau)).
      { apply (step_run_at w u _ _ _ _ Hu). simpl. unfold exchange_and_add.
        rewrite Z.add_0_r.
        assert (Hw : wrap_long (m_num_waiters (cv (mem w))) = m_num_waiters (cv (mem w)))
          by (rewrite (inv_waiters _ HI); apply wrap_long_idem).
        rewrite Hw, Hz. f_equal. f_equal. f_equal.
        destruct (mem w) as [[] ? ?]; reflexivity. }
      eapply frees_step; [exact Hs|].
      eapply (holder_frees _ u (InNotify N50 c));
        [eapply reachable_step; eauto|simpl; eapply insert_lookup_same; eauto
        |reflexivity|discriminate..].
    + assert (Hs : step (Run u) w
                   = Some (mkWorld (mem w) (<[u := InNotify N55 c]> (threads w)), EvTau)).
      { apply (step_run_at w u _ _ _ _ Hu). simpl. unfold exchange_and_add.
        rewrite Z.add_0_r.
        assert (Hw : wrap_long (m_num_waiters (cv (mem w))) = m_num_waiters (cv (mem w)))
          by (rewrite (inv_waiters _ HI); apply wrap_long_idem).
        rewrite Hw, Hz. f_equal. f_equal. f_equal.
        destruct (mem w) as [[] ? ?]; reflexivity. }
      eapply frees_step; [exact Hs|].
      assert (Hs2 : step (Run u) (mkWorld (mem w) (<[u := InNotify N55 c]> (threads w)))
                    = Some (mkWorld (set_command c (mem w))
                              (<[u := Returning None]> (threads w)), EvNotified SLEEP c)).
      { apply (step_next _ _ _ _ _ _ _ _ Hu). simpl.
        unfold interlocked_compare_exchange. rewrite Hc. reflexivity. }
      eapply frees_step; [exact Hs2|].
      apply pending_frees.
      * eapply reachable_step; [|exact Hs2]. eapply reachable_step; eauto.
      * simpl. destruct Hth as [[-> | ->] _]; discriminate.
  - eapply (holder_frees w u); eauto; discriminate.
  - (* line 55 *)
    assert (Hs : step (Run u) w
                 = Some (mkWorld (set_command c (mem w))
                           (<[u := Returning None]> (threads w)), EvNotified SLEEP c)).
    { apply (step_run_at w u _ _ _ _ Hu). simpl.
      unfold interlocked_compare_exchange. rewrite Hc. reflexivity. }
    eapply frees_step; [exact Hs|].
    apply pending_frees; [eapply reachable_step; eauto|].
    simpl. destruct Hth as [[-> | ->] _]; discriminate.
  - eapply (holder_frees w u); eauto; discriminate.
Qed.

Lemma enter_mutex_can_be_freed_witness :
  frees_enter (after 2 (sc_notified CNotifyAll)).
Proof.
  exact (enter_mutex_can_be_freed (after 2 (sc_notified CNotifyAll))
           (after_reachable 2 (sc_notified CNotifyAll))).
Defined.

(** ** Who unlocks the entry mutex *)

Lemma in_flight_holder w :
  Inv w -> in_flight w ->
  m_enter_mut (cv (mem w)) <> None /\
  forall u thu, threads w !! u = Some thu -> holds_enter thu = true -> consumer thu = true.
Proof.
  intros HI [Hc | Hc].
  - destruct (command_exclusive w HI Hc) as [He Hx]. split; [exact He|].
    intros u thu Hu Hh. rewrite (Hx u thu Hu) in Hh. discriminate.
  - apply count_exists in Hc as (v & thv & Hv & Hk).
    destruct (enter_exclusive w v thv HI Hv (consumer_holds _ Hk)) as (_ & He & Hx).
    split; [exact He|]. intros u thu Hu Hh.
    destruct (decide (u = v)) as [-> | Hne]; [congruence|].
    rewrite (Hx u thu Hne Hu) in Hh. discriminate.
Qed.

(** A notification comes in flight by the compare-exchange of line 55 and
    by no other step. *)
Lemma flight_begins w l w' ev :
  Inv w -> step l w = Some (w', ev) -> in_flight w' ->
  in_flight w \/ exists t c, l = Run t /\ threads w !! t = Some (InNotify N55 c).
Proof.
  intros HI H Hf. unfold in_flight in *.
  destruct l as [t|t c|t m|t m|].
  2: { simpl in H. destruct (threads w !! t) as [[| | |]|] eqn:Ht; try discriminate.
       destruct (call_allowed t (mem w) c); [|discriminate]. injection H as <- <-.
       simpl in Hf. pose proof (count_insert consumer _ _ _ (enter_call c) Ht) as E.
       left. destruct Hf; [now left|right]. destruct c; simpl in *; lia. }
  2-4: left; other_label H; assumption.
  apply step_run_inv in H as (th & s' & th' & Ht & Hs & ->). simpl in Hf.
  pose proof (count_insert consumer _ _ _ th' Ht) as E.
  pose proof (inv_threads _ HI _ _ Ht) as Hth.
  pose proof (inv_cmd _ HI) as Hcmd. pose proof (cmd_read _ Hcmd) as Rc.
  destruct th as [|[] c|[] fr|r]; [discriminate Hs| .. ];
    step_cases Hs; simpl in *; split_hyps; rewrite ?Rc in *.
  all: try solve [right; eauto].
  all: try solve [left; destruct Hf; [left; congruence|right; lia]].
  all: try solve [left; left; unfold SLEEP, NOTIFY_ONE, NOTIFY_ALL in *; congruence].
  all: repeat match goal with
       | E : timed_out _ = _ |- _ => rewrite E in *
       | E : unlock_enter_mut _ = _ |- _ => rewrite E in *
       end; simpl in *.
  all: try solve [left; destruct Hf; [left; congruence|right; lia]].
  all: try solve [left; destruct Hf; [left; congruence|right;
                  destruct (unlock_enter_mut fr), (timed_out fr); simpl in *; try lia;
                  intuition congruence]].
Qed.

(** Until the notification is over, no step unlocks or relocks. *)
Lemma flight_keeps_enter w l w' ev :
  Inv w -> Inv w' -> step l w = Some (w', ev) -> in_flight w -> in_flight w' ->
  m_enter_mut (cv (mem w')) = m_enter_mut (cv (mem w)).
Proof.
  intros HI HI' H Hf Hf'.
  destruct (in_flight_holder w HI Hf) as [He Hh].
  destruct (in_flight_holder w' HI' Hf') as [He' _].
  destruct l as [t| | | |];
    [|f_equal; eapply step_other_mem; eauto; discriminate..].
  apply step_run_inv in H as (th & s' & th' & Ht & Hs & ->). simpl in *.
  specialize (Hh t th Ht).
  destruct th as [|[] c|[] fr|r]; [discriminate Hs| .. ];
    step_cases Hs; simpl in *; try reflexivity; try congruence.
  all: try (specialize (Hh eq_refl); discriminate).
Qed.

Lemma handed_over_step w l w' ev :
  Inv w -> handed_over w -> step l w = Some (w', ev) -> handed_over w'.
Proof.
  intros HI HL H Hf'.
  pose proof (Inv_step _ _ _ _ HI H) as HI'.
  destruct (flight_begins _ _ _ _ HI H Hf') as [Hf | (t & c & -> & Ht)].
  - destruct (HL Hf) as (o & tho & Ho & Hto & Hng).
    pose proof (flight_keeps_enter _ _ _ _ HI HI' H Hf Hf') as Hk.
    exists o. rewrite Hk.
    destruct (acts o l) eqn:Ha.
    2: { exists tho. repeat split; auto.
         destruct l as [t|t c|t m|t m|]; simpl in Ha.
         - apply step_run_inv in H as (th & s' & th' & Ht & Hs & ->). simpl.
           apply Nat.eqb_neq in Ha. now rewrite list_lookup_insert_ne by congruence.
         - other_label H. apply Nat.eqb_neq in Ha.
           now rewrite list_lookup_insert_ne by congruence.
         - other_label H. assumption.
         - other_label H. assumption.
         - other_label H. assumption. }
    destruct l as [t|t c|t m|t m|]; simpl in Ha; try discriminate;
      apply Nat.eqb_eq in Ha; subst t.
    + apply step_run_inv in H as (th & s' & th' & Ht & Hs & ->). simpl in *.
      rewrite Ht in Hto. injection Hto as <-.
      exists th'. split; [assumption|]. split; [eapply insert_lookup_same; eauto|].
      destruct th as [|[] c|[] fr|r]; try discriminate; step_cases Hs; try reflexivity.
      all: congruence.
    + exists (enter_call c). simpl in H. rewrite Hto in H.
      destruct tho; try discriminate.
      destruct (call_allowed o (mem w) c); [|discriminate]. injection H as <- <-.
      split; [assumption|]. split; [simpl; eapply insert_lookup_same; eauto|].
      destruct c; reflexivity.
    + exists tho. other_label H. auto.
    + exists tho. other_label H. auto.
  - pose proof (inv_threads _ HI _ _ Ht) as (_ & He & _).
    apply step_run_inv in H as (th & s' & th' & Ht' & Hs & ->).
    rewrite Ht in Ht'. injection Ht' as <-. simpl in Hs. injection Hs as <- <- <-.
    exists t, (Returning None). simpl. split; [assumption|].
    split; [eapply insert_lookup_same; eauto|reflexivity].
Qed.

Lemma handed_over_reachable w : reachable w -> handed_over w.
Proof.
  intros (n & h & H). remember (init n) as w0 eqn:E. induction H; subst.
  - intros [Hc | Hc]; [now elim Hc|]. simpl in Hc.
    rewrite count_replicate in Hc by reflexivity. lia.
  - eapply handed_over_step; eauto. eapply Inv_exec; [apply Inv_init|eassumption].
Qed.

(** The mutex that [notify] leaves locked is unlocked by another thread:
    while a notification is in flight, [m_enter_mut] is locked by a thread
    that is not inside the condition, and the waiter that performs the
    unlock of line 176 for a notification is never the thread that
    locked.  ([m_check_mut], and [m_enter_mut] on a timeout, are unlocked
    by their locker.) *)
Theorem enter_unlocked_by_another w t fr :
  reachable w -> threads w !! t = Some (InWait W175 fr) ->
  unlock_enter_mut fr = true ->
  if timed_out fr then m_enter_mut (cv (mem w)) = Some t
  else exists o th, m_enter_mut (cv (mem w)) = Some o /\ o <> t /\
         threads w !! o = Some th /\ engaged th = false.
Proof.
  intros Hr Ht Hf. pose proof (Inv_reachable _ Hr) as HI.
  pose proof (inv_threads _ HI _ _ Ht) as (_ & Hth).
  destruct (timed_out fr) eqn:Hto; [now apply Hth|].
  assert (Hfl : in_flight w).
  { right. apply (count_lookup consumer _ _ _ Ht). simpl. now rewrite Hf, Hto. }
  destruct (handed_over_reachable w Hr Hfl) as (o & th & H1 & H2 & H3).
  exists o, th. repeat split; auto. intros ->. rewrite Ht in H2. injection H2 as <-.
  discriminate.
Qed.

Lemma enter_unlocked_by_another_witness :
  exists o th, m_enter_mut (cv (mem (after 2 (sc_notified CNotifyOne ++ [Run 0; Run 0; Run 0]))))
               = Some o /\ o <> 0 /\
    threads (after 2 (sc_notified CNotifyOne ++ [Run 0; Run 0; Run 0])) !! o = Some th /\
    engaged th = false.
Proof.
  exact (enter_unlocked_by_another (after 2 (sc_notified CNotifyOne ++ [Run 0; Run 0; Run 0])) 0
           (mkFrame false ptime_default 0 0 false true)
           (after_reachable 2 _) eq_refl eq_refl).
Defined.
